(** * The gRPC API server of [pkg/api/server.go]

    A shallow embedding of [Server.Create], [Server.Attach],
    [Server.Signal] and [getMetadataValue], and the properties of the
    pod creation pipeline, the progress broadcaster, the attach
    multiplexer and the signal dispatcher.

    The runtime client ([runtime.Client]) is an opaque collaborator.  The
    handlers that call it once ([Attach], [Signal]) take it as an
    interface; every invocation is recorded in a call log, the way a test
    double counts calls.  [Create] runs a goroutine next to the calling
    goroutine, so it is a transition system over interleavings in which
    the results of the collaborators are chosen by the environment. *)

From stdpp Require Import base option list gmap strings.
From stdpp Require Import pretty.

(** ** Errors ([error], [fmt.Errorf], [errors.Wrapf]) *)

Inductive error : Type :=
| errorString (msg : string)
| withMessage (cause : error) (msg : string).

(** [err.Error()]: a wrapped error prints its message, a colon and its cause. *)
Fixpoint Error (e : error) : string :=
  match e with
  | errorString msg => msg
  | withMessage cause msg => msg +:+ ": " +:+ Error cause
  end.

(** [errors.Cause(err)] *)
Fixpoint Cause (e : error) : error :=
  match e with
  | errorString _ => e
  | withMessage cause _ => Cause cause
  end.

Definition Errorf (msg : string) : error := errorString msg.

(** [errors.Wrapf(err, format, args...)]; nil stays nil. *)
Definition Wrapf (err : option error) (msg : string) : option error :=
  match err with
  | Some e => Some (withMessage e msg)
  | None => None
  end.

(** ** The internal model ([mapping.MapPodToInternalModel] yields these) *)

Record Container : Type := {
  Name : string;
  Image : string;
  Tty : bool
}.

Record PodMetadata : Type := {
  PodName : string;
  Namespace : string
}.

Record PodSpec : Type := {
  Containers : list Container
}.

Record Pod : Type := {
  Metadata : PodMetadata;
  Spec : PodSpec
}.

(** ** The progress tracker and its wire model *)

Module progress.

(** Modelled from the spec: package [progress] is not part of the
    sources at hand.  An image-fetch record holds the container name,
    the image reference, a completion flag and optional byte counters;
    it is created when the pull of a container begins, the pull reports
    counters into it, and [AllDone] marks it complete. *)
Record Layer : Type := {
  Ref : string;
  Offset : Z;
  Total : Z
}.

Record ImageFetch : Type := {
  ContainerID : string;
  Image : string;
  Complete : bool;
  Layers : list Layer
}.

Definition NewImageFetch (containerID image : string) : ImageFetch :=
  {| ContainerID := containerID; Image := image;
     Complete := false; Layers := [] |}.

Definition AllDone (f : ImageFetch) : ImageFetch :=
  {| ContainerID := ContainerID f; Image := Image f;
     Complete := true; Layers := Layers f |}.

(** What the runtime client does with the record handed to
    [PullImage]: it reports the counters of the layers. *)
Definition Report (layers : list Layer) (f : ImageFetch) : ImageFetch :=
  {| ContainerID := ContainerID f; Image := Image f;
     Complete := Complete f; Layers := layers |}.

End progress.

Module pods.

(** Modelled from the spec: the generated messages of the pods service
    are not part of the sources at hand.  A progress snapshot is a
    point-in-time view of the completion state of every container. *)
Record ImageFetch : Type := {
  ContainerID : string;
  Image : string;
  Resolved : bool;
  Layers : list progress.Layer
}.

Record CreatePodStreamResponse : Type := {
  Images : list ImageFetch
}.

End pods.

Module mapping.

(** Modelled from the spec: package [mapping] is not part of the
    sources at hand.  The wire model of the tracker is one entry per
    record, in the order of the collection. *)
Definition MapImageFetchProgressToAPIModel
    (progresses : list progress.ImageFetch) : list pods.ImageFetch :=
  (λ f, {| pods.ContainerID := progress.ContainerID f;
           pods.Image := progress.Image f;
           pods.Resolved := progress.Complete f;
           pods.Layers := progress.Layers f |}) <$> progresses.

End mapping.

(** ** Attach streams *)

(** [metadata.MD] is [map[string][]string]. *)
Abbreviation MD := (gmap string (list string)).

(** The [containers.Containers_AttachServer] of one call: an identity
    for the duplex stream and the incoming metadata of its context, if
    any ([metadata.FromIncomingContext] returns [ok = false] without). *)
Record AttachServer : Type := {
  stream_id : nat;
  incoming : option MD
}.

Definition FromIncomingContext (server : AttachServer) : option MD :=
  incoming server.

Module stream.

(** Modelled from the spec: package [stream] is not part of the sources
    at hand.  [NewReader] is the one source that consumes the frames
    the client sends, [NewWriter] a sink that wraps bytes as outbound
    frames tagged by a boolean telling process error from process
    output. *)
Inductive Reader : Type :=
| NewReader (server : AttachServer).

Inductive Writer : Type :=
| NewWriter (server : AttachServer) (stderr : bool).

Definition tag (w : Writer) : bool :=
  match w with NewWriter _ stderr => stderr end.

End stream.

(** [runtime.AttachIO] *)
Record AttachIO : Type := {
  Stdin : stream.Reader;
  Stdout : stream.Writer;
  Stderr : stream.Writer
}.

(** ** Signals *)

Module syscall.

(** [syscall.Signal] is [type Signal int]; the conversion
    [syscall.Signal(n)] of the request's integer keeps its value. *)
Inductive Signal : Type :=
| ToSignal (n : Z).

Definition number (s : Signal) : Z :=
  match s with ToSignal n => n end.

End syscall.

Module containers.

(** The request and response messages of the [Signal] call; the
    signal travels as a 32-bit integer. *)
Record SignalRequest : Type := {
  Namespace : string;
  ContainerID : string;
  Signal : Z
}.

Inductive SignalResponse : Type :=
| EmptySignalResponse.

End containers.

(** ** Calls on the runtime client *)

Inductive Call : Type :=
| CallPullImage (namespace image : string) (progress : nat)
| CallCreateContainer (pod : Pod) (container : Container)
| CallAttach (namespace containerID : string) (io : AttachIO)
| CallSignal (namespace containerID : string) (sig : syscall.Signal).

(** The part of [runtime.Client] the one-call handlers use.  Each handler
    calls the client at most once, so the answer of a client with hidden
    state is the answer of some function of the arguments. *)
Class RuntimeClient : Type := {
  client_Attach : string → string → AttachIO → option error;
  client_Signal : string → string → syscall.Signal → option error
}.

(** ** Handlers as computations over the call log *)

Inductive outcome (A : Type) : Type :=
| Ret (a : A)
| Panic (reason : string).
Arguments Ret {A} a.
Arguments Panic {A} reason.

(** A handler reads and extends the log of client calls made so far and
    either returns or panics. *)
Definition Exec (A : Type) : Type := list Call → outcome A * list Call.

#[export] Instance Exec_ret : MRet Exec := λ A a log, (Ret a, log).

#[export] Instance Exec_bind : MBind Exec := λ A B k m log,
  match m log with
  | (Ret a, log') => k a log'
  | (Panic reason, log') => (Panic reason, log')
  end.

Definition lift {A : Type} (o : outcome A) : Exec A := λ log, (o, log).

Definition invoke {A : Type} (c : Call) (answer : A) : Exec A :=
  λ log, (Ret answer, log ++ [c]).

Definition exec {A : Type} (m : Exec A) : outcome A * list Call := m [].

(** ** [getMetadataValue] *)

(** [val[0]] on an empty slice is a run-time panic. *)
Definition index0 (val : list string) : outcome string :=
  match val with
  | v :: _ => Ret v
  | [] => Panic "index out of range [0] with length 0"
  end.

Definition getMetadataValue (md : MD) (key : string) : outcome string :=
  match md !! key with
  | Some val => index0 val
  | None => Ret ""
  end.

(** ** [Server.Attach] and [Server.Signal] *)

Module Server.
Section Handlers.

Context `{client : RuntimeClient}.

Definition Attach (server : AttachServer) : Exec (option error) :=
  match FromIncomingContext server with
  | None =>
      mret (Some (Errorf "Incoming attach request don't have metadata. You must provide 'Namespace' and 'ContainerID' through metadata"))
  | Some md =>
      namespace ← lift (getMetadataValue md "namespace");
      containerID ← lift (getMetadataValue md "container");
      if decide (namespace = "") then
        mret (Some (Errorf "You must define 'namespace' metadata"))
      else if decide (containerID = "") then
        mret (Some (Errorf "You must define 'container' metadata"))
      else
        let io := {| Stdin := stream.NewReader server;
                     Stdout := stream.NewWriter server false;
                     Stderr := stream.NewWriter server true |} in
        invoke (CallAttach namespace containerID io)
               (client_Attach namespace containerID io)
  end.

Definition Signal (req : containers.SignalRequest)
  : Exec (option containers.SignalResponse * option error) :=
  let sig := syscall.ToSignal (containers.Signal req) in
  err ← invoke (CallSignal (containers.Namespace req) (containers.ContainerID req) sig)
               (client_Signal (containers.Namespace req) (containers.ContainerID req) sig);
  match err with
  | Some e => mret (None, Some e)
  | None => mret (Some containers.EmptySignalResponse, None)
  end.

End Handlers.

(** *** [Server.Create]

    The calling goroutine runs the pipeline; the goroutine it starts
    runs the broadcaster.  The state holds what the two share (the
    slice [progresses], the channel [done]) and what they leave behind
    for an observer: the calls made on the runtime client, the
    messages handed to [server.Send] and the warnings logged. *)

(** Where the calling goroutine stands. *)
Inductive PC : Type :=
| LoopHead (rest : list Container)
| InPullImage (container : Container) (progress : nat) (rest : list Container)
| InCreateContainer (container : Container) (rest : list Container)
| Deferred (ret : option error)
| Returned (ret : option error).

(** The broadcaster goroutine: in its [for]/[select] loop or returned. *)
Inductive Broadcaster : Type :=
| Reporting
| Stopped.

Record State : Type := {
  pc : PC;
  progresses : list progress.ImageFetch;
  done : bool;
  broadcaster : Broadcaster;
  calls : list Call;
  sent : list pods.CreatePodStreamResponse;
  warnings : list string
}.

(** One step of one of the goroutines, with what the environment
    decided: the error a client call or a send came back with, the
    counters the client wrote while pulling. *)
Inductive Event : Type :=
| EvRange
| EvReport (layers : list progress.Layer)
| EvPullImageReturns (err : option error)
| EvCreateContainerReturns (err : option error)
| EvCloseDone
| EvTimer (sendErr : option error)
| EvDoneReceived (sendErr : option error).

Definition init (pod : Pod) : State :=
  {| pc := LoopHead (Containers (Spec pod));
     progresses := [];
     done := false;
     broadcaster := Reporting;
     calls := [];
     sent := [];
     warnings := [] |}.

(** The pipeline's part of the state changes, the rest stays. *)
Definition pipeline (st : State) (pc' : PC)
    (progresses' : list progress.ImageFetch) (calls' : list Call) : State :=
  {| pc := pc'; progresses := progresses'; done := done st;
     broadcaster := broadcaster st; calls := calls';
     sent := sent st; warnings := warnings st |}.

(** [close(done)], deferred to the return of [Create]. *)
Definition close_done (st : State) (ret : option error) : State :=
  {| pc := Returned ret; progresses := progresses st; done := true;
     broadcaster := broadcaster st; calls := calls st;
     sent := sent st; warnings := warnings st |}.

Definition snapshot (st : State) : pods.CreatePodStreamResponse :=
  {| pods.Images := mapping.MapImageFetchProgressToAPIModel (progresses st) |}.

Definition Warnf (err : error) : string :=
  "Error while sending create pod status back to client: " +:+ Error err.

(** The body shared by the two cases of the [select]: map the
    tracker, send, and log a failed send. *)
Definition send (sendErr : option error) (b : Broadcaster) (st : State) : State :=
  {| pc := pc st; progresses := progresses st; done := done st;
     broadcaster := b; calls := calls st;
     sent := sent st ++ [snapshot st];
     warnings := match sendErr with
                 | Some err => warnings st ++ [Warnf err]
                 | None => warnings st
                 end |}.

(** The steps, by goroutine.

    Calling goroutine: the [range] clause yields the next container or
    ends the loop (line 60); for a container, the record is created and
    appended and [PullImage] is called with it (61-64); while the call
    lasts the client may report into the record; the call returns
    (64-67), and on success the record is marked complete and
    [CreateContainer] is called (67-69); that call returns (69-72).  A
    [return] sets the value and leaves the deferred [close(done)] to run
    (37, 65, 70, 75).

    Broadcaster: each round of the loop enters the [select] (41).  The
    model has no clock, so the timer case (50) is open in every round;
    the other case (42) is open once [done] is closed.  When both are
    open either may be taken, as [select] chooses among the cases that
    can proceed.  A step that is not open yields [None].

    A tick reads the tracker in one step.  In the source that read is
    not synchronised with the writes of the calling goroutine, so
    the properties of the broadcaster below rely on nothing a tick
    message holds, only on its being handed to the stream; the read of the other case follows the
    receive on the closed channel and sees the tracker as [Create] left
    it. *)
Definition step (pod : Pod) (st : State) (ev : Event) : option State :=
  match ev, pc st with
  | EvRange, LoopHead [] =>
      Some (pipeline st (Deferred None) (progresses st) (calls st))
  | EvRange, LoopHead (container :: rest) =>
      let progress := length (progresses st) in
      Some (pipeline st (InPullImage container progress rest)
              (progresses st ++
                 [progress.NewImageFetch (Name container) (Image container)])
              (calls st ++
                 [CallPullImage (Namespace (Metadata pod)) (Image container) progress]))
  | EvReport layers, InPullImage container progress rest =>
      Some (pipeline st (InPullImage container progress rest)
              (alter (progress.Report layers) progress (progresses st))
              (calls st))
  | EvPullImageReturns (Some err), InPullImage container _ _ =>
      Some (pipeline st
              (Deferred (Wrapf (Some err)
                           ("Failed to pull image [" +:+ Image container +:+ "]")))
              (progresses st) (calls st))
  | EvPullImageReturns None, InPullImage container progress rest =>
      Some (pipeline st (InCreateContainer container rest)
              (alter progress.AllDone progress (progresses st))
              (calls st ++ [CallCreateContainer pod container]))
  | EvCreateContainerReturns (Some err), InCreateContainer container _ =>
      Some (pipeline st
              (Deferred (Wrapf (Some err)
                           ("Failed to create container [" +:+ Name container +:+ "]")))
              (progresses st) (calls st))
  | EvCreateContainerReturns None, InCreateContainer _ rest =>
      Some (pipeline st (LoopHead rest) (progresses st) (calls st))
  | EvCloseDone, Deferred ret =>
      Some (close_done st ret)
  | EvTimer sendErr, _ =>
      match broadcaster st with
      | Reporting => Some (send sendErr Reporting st)
      | Stopped => None
      end
  | EvDoneReceived sendErr, _ =>
      match broadcaster st, done st with
      | Reporting, true => Some (send sendErr Stopped st)
      | _, _ => None
      end
  | _, _ => None
  end.

Fixpoint run (pod : Pod) (st : State) (trace : list Event) : option State :=
  match trace with
  | [] => Some st
  | ev :: trace' =>
      match step pod st ev with
      | Some st' => run pod st' trace'
      | None => None
      end
  end.

(** [Create pod trace]: the state the call is in after the steps of
    [trace], if they can be taken in that order. *)
Definition Create (pod : Pod) (trace : list Event) : option State :=
  run pod (init pod) trace.

(** The value [Create] returned, once it has. *)
Definition returned (st : State) : option (option error) :=
  match pc st with
  | Returned ret => Some ret
  | _ => None
  end.

End Server.

(** ** Vocabulary for the properties of [Create] *)

(** The tracker record of a container: it carries its name and image. *)
Definition tracks (c : Container) (f : progress.ImageFetch) : Prop :=
  progress.ContainerID f = Name c ∧ progress.Image f = Image c.

Definition completed (c : Container) (f : progress.ImageFetch) : Prop :=
  tracks c f ∧ progress.Complete f = true.

(** The client calls of containers that went through both steps, the
    first of them with the tracker record at index [i]. *)
Fixpoint completed_calls (pod : Pod) (i : nat) (cs : list Container) : list Call :=
  match cs with
  | [] => []
  | c :: cs' =>
      CallPullImage (Namespace (Metadata pod)) (Image c) i
        :: CallCreateContainer pod c
        :: completed_calls pod (S i) cs'
  end.

Definition pull_failure (c : Container) (err : error) : error :=
  withMessage err ("Failed to pull image [" +:+ Image c +:+ "]").

Definition create_failure (c : Container) (err : error) : error :=
  withMessage err ("Failed to create container [" +:+ Name c +:+ "]").

(** Kinds of events, to count them in a trace. *)
Definition is_failure (ev : Server.Event) : bool :=
  match ev with
  | Server.EvPullImageReturns (Some _)
  | Server.EvCreateContainerReturns (Some _) => true
  | _ => false
  end.

Definition is_close (ev : Server.Event) : bool :=
  match ev with Server.EvCloseDone => true | _ => false end.

Definition is_final (ev : Server.Event) : bool :=
  match ev with Server.EvDoneReceived _ => true | _ => false end.

Definition is_broadcast (ev : Server.Event) : bool :=
  match ev with
  | Server.EvTimer _ | Server.EvDoneReceived _ => true
  | _ => false
  end.

Definition count (kind : Server.Event → bool) (trace : list Server.Event) : nat :=
  length (List.filter kind trace).

(** The steps that bring a call to its end when every client call still
    to come returns without error: the rest of the loop, the deferred
    close, and the receipt of the signal by the broadcaster. *)
Definition finish_loop (rest : list Container) : list Server.Event :=
  (rest ≫= λ _, [ Server.EvRange; Server.EvPullImageReturns None;
                  Server.EvCreateContainerReturns None ])
  ++ [ Server.EvRange; Server.EvCloseDone ].

Definition finish_broadcaster (st : Server.State) : list Server.Event :=
  match Server.broadcaster st with
  | Server.Reporting => [ Server.EvDoneReceived None ]
  | Server.Stopped => []
  end.

Definition finish_pipeline (st : Server.State) : list Server.Event :=
  match Server.pc st with
  | Server.LoopHead rest => finish_loop rest
  | Server.InPullImage _ _ rest =>
      Server.EvPullImageReturns None :: Server.EvCreateContainerReturns None
        :: finish_loop rest
  | Server.InCreateContainer _ rest =>
      Server.EvCreateContainerReturns None :: finish_loop rest
  | Server.Deferred _ => [ Server.EvCloseDone ]
  | Server.Returned _ => []
  end.

Definition finish (st : Server.State) : list Server.Event :=
  finish_pipeline st ++ finish_broadcaster st.

(** The state after the steps of a trace that can be taken. *)
Definition state_after (pod : Pod) (trace : list Server.Event) : Server.State :=
  default (Server.init pod) (Server.Create pod trace).

(** The wire entry of a container whose image is fetched. *)
Definition shows_complete (c : Container) (img : pods.ImageFetch) : Prop :=
  pods.ContainerID img = Name c
  ∧ pods.Image img = Image c
  ∧ pods.Resolved img = true.

(** The state without the warnings logged. *)
Definition forget_warnings (st : Server.State) : Server.State :=
  {| Server.pc := Server.pc st; Server.progresses := Server.progresses st;
     Server.done := Server.done st; Server.broadcaster := Server.broadcaster st;
     Server.calls := Server.calls st; Server.sent := Server.sent st;
     Server.warnings := [] |}.

(** The same step with a send that succeeds. *)
Definition heal (ev : Server.Event) : Server.Event :=
  match ev with
  | Server.EvTimer _ => Server.EvTimer None
  | Server.EvDoneReceived _ => Server.EvDoneReceived None
  | _ => ev
  end.

(** The errors of the failed sends of a trace, in order. *)
Definition send_error (ev : Server.Event) : option error :=
  match ev with
  | Server.EvTimer sendErr | Server.EvDoneReceived sendErr => sendErr
  | _ => None
  end.

(** What the pipeline has built when it stands at a given point: the
    containers before that point went through both steps, their records
    are complete, and the record of the container at hand is the last. *)
Inductive exit_shape (pod : Pod)
  : option error → list progress.ImageFetch → list Call → Prop :=
| exit_ok ps :
    Forall2 completed (Containers (Spec pod)) ps →
    exit_shape pod None ps (completed_calls pod 0 (Containers (Spec pod)))
| exit_pull_failed pre c rest ps f err :
    Containers (Spec pod) = pre ++ c :: rest →
    Forall2 completed pre ps →
    tracks c f → progress.Complete f = false →
    exit_shape pod (Some (pull_failure c err)) (ps ++ [f])
      (completed_calls pod 0 pre
         ++ [CallPullImage (Namespace (Metadata pod)) (Image c) (length pre)])
| exit_create_failed pre c rest ps f err :
    Containers (Spec pod) = pre ++ c :: rest →
    Forall2 completed pre ps →
    completed c f →
    exit_shape pod (Some (create_failure c err)) (ps ++ [f])
      (completed_calls pod 0 (pre ++ [c])).

Inductive pipeline_shape (pod : Pod)
  : Server.PC → list progress.ImageFetch → list Call → Prop :=
| shape_loop pre rest ps :
    Containers (Spec pod) = pre ++ rest →
    Forall2 completed pre ps →
    pipeline_shape pod (Server.LoopHead rest) ps (completed_calls pod 0 pre)
| shape_pull pre c rest ps f :
    Containers (Spec pod) = pre ++ c :: rest →
    Forall2 completed pre ps →
    tracks c f → progress.Complete f = false →
    pipeline_shape pod (Server.InPullImage c (length pre) rest) (ps ++ [f])
      (completed_calls pod 0 pre
         ++ [CallPullImage (Namespace (Metadata pod)) (Image c) (length pre)])
| shape_create pre c rest ps f :
    Containers (Spec pod) = pre ++ c :: rest →
    Forall2 completed pre ps →
    completed c f →
    pipeline_shape pod (Server.InCreateContainer c rest) (ps ++ [f])
      (completed_calls pod 0 (pre ++ [c]))
| shape_deferred ret ps cl :
    exit_shape pod ret ps cl →
    pipeline_shape pod (Server.Deferred ret) ps cl
| shape_returned ret ps cl :
    exit_shape pod ret ps cl →
    pipeline_shape pod (Server.Returned ret) ps cl.

(** The return value of [Create] is set, its deferred call pending or made. *)
Definition exiting (ret : option error) (st : Server.State) : Prop :=
  Server.pc st = Server.Deferred ret ∨ Server.pc st = Server.Returned ret.

(** What holds of every state of a call. *)
Record invariant (pod : Pod) (st : Server.State) : Prop := {
  inv_shape :
    pipeline_shape pod (Server.pc st) (Server.progresses st) (Server.calls st);
  inv_done :
    Server.done st = true ↔ ∃ ret, Server.pc st = Server.Returned ret;
  inv_stopped :
    Server.broadcaster st = Server.Stopped →
    Server.done st = true
    ∧ ∃ earlier, Server.sent st = earlier ++ [Server.snapshot st]
}.

(** What holds of every state with the trace that led to it. *)
Record accounted (trace : list Server.Event) (st : Server.State) : Prop := {
  acc_close : count is_close trace = if Server.done st then 1 else 0;
  acc_final :
    count is_final trace
    = match Server.broadcaster st with Server.Stopped => 1 | _ => 0 end;
  acc_failure :
    count is_failure trace
    = match Server.pc st with
      | Server.Deferred (Some _) | Server.Returned (Some _) => 1
      | _ => 0
      end;
  acc_sent : length (Server.sent st) = count is_broadcast trace;
  acc_warnings :
    Server.warnings st = Server.Warnf <$> omap send_error trace
}.

(** ** Test doubles and sample inputs *)

Definition web : Container := {| Name := "web"; Image := "nginx"; Tty := false |}.
Definition db : Container := {| Name := "db"; Image := "postgres"; Tty := false |}.

Definition sample_pod : Pod :=
  {| Metadata := {| PodName := "shop"; Namespace := "ns1" |};
     Spec := {| Containers := [web; db] |} |}.

Definition timeout : error := errorString "context deadline exceeded".

(** Both containers are pulled and created; the stream breaks under the
    first tick. *)
Definition all_succeed : list Server.Event :=
  [ Server.EvRange; Server.EvTimer (Some (errorString "transport is closing"));
    Server.EvReport [ {| progress.Ref := "sha256:1"; progress.Offset := 10;
                         progress.Total := 40 |} ];
    Server.EvPullImageReturns None; Server.EvCreateContainerReturns None;
    Server.EvRange; Server.EvPullImageReturns None; Server.EvTimer None;
    Server.EvCreateContainerReturns None;
    Server.EvRange; Server.EvCloseDone; Server.EvDoneReceived None ].

(** The pull of the second container fails. *)
Definition second_pull_fails : list Server.Event :=
  [ Server.EvRange; Server.EvPullImageReturns None;
    Server.EvCreateContainerReturns None;
    Server.EvRange; Server.EvTimer None; Server.EvPullImageReturns (Some timeout);
    Server.EvCloseDone; Server.EvDoneReceived None ].

(** A pod without containers: the loop ends at once, and a tick is
    taken between the close and its receipt. *)
Definition empty_pod : Pod :=
  {| Metadata := {| PodName := "idle"; Namespace := "ns1" |};
     Spec := {| Containers := [] |} |}.

Definition late_tick : list Server.Event :=
  [ Server.EvRange; Server.EvCloseDone; Server.EvTimer None;
    Server.EvDoneReceived None ].

(** The creation of the first container fails. *)
Definition first_create_fails : list Server.Event :=
  [ Server.EvRange; Server.EvPullImageReturns None;
    Server.EvCreateContainerReturns (Some timeout);
    Server.EvCloseDone; Server.EvDoneReceived None ].

(** A runtime client that accepts every call. *)
Definition accepting_client : RuntimeClient :=
  {| client_Attach := λ _ _ _, None;
     client_Signal := λ _ _ _, None |}.

(** A runtime client that fails every call with the given error. *)
Definition failing_client (err : error) : RuntimeClient :=
  {| client_Attach := λ _ _ _, Some err;
     client_Signal := λ _ _ _, Some err |}.

Definition attach_server (md : option MD) : AttachServer :=
  {| stream_id := 0; incoming := md |}.

Definition index_panic : string := "index out of range [0] with length 0".

(** The three channels [Attach] builds over the stream of the call. *)
Definition attach_io (server : AttachServer) : AttachIO :=
  {| Stdin := stream.NewReader server;
     Stdout := stream.NewWriter server false;
     Stderr := stream.NewWriter server true |}.

(** ** The pods service: [Server.Start], [Server.Delete], [Server.List] *)

(** These handlers call the runtime client several times in a row, so
    the client is taken with its hidden state: every call answers and
    moves the state on. *)
Inductive PodsCall : Type :=
| CallGetContainers (namespace name : string)
| CallStartContainer (namespace name : string) (tty : bool)
| CallStopContainer (namespace name : string)
| CallGetPods (namespace : string).

Class PodsClient (CS : Type) : Type := {
  client_GetContainers : string → string → CS → (list Container * option error) * CS;
  client_StartContainer : string → string → bool → CS → option error * CS;
  client_StopContainer : string → string → CS → option error * CS;
  client_GetPods : string → CS → (list Pod * option error) * CS
}.

(** [mapping.CreatePodAPIModel] and [mapping.MapPodsToAPIModel] are not
    part of the sources at hand; the handlers are taken over any two
    such functions into any wire model of pods. *)
Class PodMapping (ApiPod : Type) : Type := {
  CreatePodAPIModel : string → string → list Container → ApiPod;
  MapPodsToAPIModel : list Pod → list ApiPod
}.

Module podsapi.

(** The request messages of the pods service. *)
Record StartPodRequest : Type := {
  start_Namespace : string;
  start_Name : string
}.

Record DeletePodRequest : Type := {
  delete_Namespace : string;
  delete_Name : string
}.

Record ListPodsRequest : Type := {
  list_Namespace : string
}.

End podsapi.

(** The client's state and the calls made on it so far. *)
Record World (CS : Type) : Type := {
  provider : CS;
  history : list PodsCall
}.
Arguments provider {CS} w.
Arguments history {CS} w.

Definition PodsExec (CS A : Type) : Type := World CS → A * World CS.

#[export] Instance PodsExec_ret {CS} : MRet (PodsExec CS) := λ A a w, (a, w).

#[export] Instance PodsExec_bind {CS} : MBind (PodsExec CS) := λ A B k m w,
  let '(a, w') := m w in k a w'.

(** Call the client: record the call, take the answer, move the state. *)
Definition ask {CS A : Type} (c : PodsCall) (answer : CS → A * CS) : PodsExec CS A :=
  λ w, let '(a, s') := answer (provider w) in
       (a, {| provider := s'; history := history w ++ [c] |}).

Module PodsServer.
Section Handlers.

Context {CS ApiPod : Type} `{client : PodsClient CS} `{PodMapping ApiPod}.

(** The loop of [Start]: start every container in turn, return at the
    first error. *)
Fixpoint Start_range (namespace : string) (containers : list Container)
  : PodsExec CS (option error) :=
  match containers with
  | [] => mret None
  | container :: rest =>
      err ← ask (CallStartContainer namespace (Name container) (Tty container))
                (client_StartContainer namespace (Name container) (Tty container));
      match err with
      | Some e =>
          mret (Wrapf (Some e)
                  ("Failed to start container [" +:+ Name container +:+ "]"))
      | None => Start_range namespace rest
      end
  end.

Definition Start (req : podsapi.StartPodRequest)
  : PodsExec CS (option ApiPod * option error) :=
  let namespace := podsapi.start_Namespace req in
  let name := podsapi.start_Name req in
  '(containers, err) ← ask (CallGetContainers namespace name)
                            (client_GetContainers namespace name);
  match err with
  | Some e =>
      mret (None,
            Wrapf (Some e)
              ("Failed to find containers to start for pod [" +:+ name
                 +:+ "] in namespace [" +:+ namespace +:+ "]"))
  | None =>
      err ← Start_range namespace containers;
      match err with
      | Some e => mret (None, Some e)
      | None => mret (Some (CreatePodAPIModel namespace name containers), None)
      end
  end.

(** The loop of [Delete]: stop every container in turn, return at the
    first error. *)
Fixpoint Delete_range (namespace : string) (containers : list Container)
  : PodsExec CS (option error) :=
  match containers with
  | [] => mret None
  | container :: rest =>
      err ← ask (CallStopContainer namespace (Name container))
                (client_StopContainer namespace (Name container));
      match err with
      | Some e =>
          mret (Wrapf (Some e)
                  ("Error while stopping container [" +:+ Name container +:+ "]"))
      | None => Delete_range namespace rest
      end
  end.

Definition Delete (req : podsapi.DeletePodRequest)
  : PodsExec CS (option ApiPod * option error) :=
  let namespace := podsapi.delete_Namespace req in
  let name := podsapi.delete_Name req in
  '(containers, err) ← ask (CallGetContainers namespace name)
                            (client_GetContainers namespace name);
  match err with
  | Some e =>
      mret (None,
            Wrapf (Some e)
              ("Cannot fetch pod containers, cannot delete pod [" +:+ name +:+ "]"))
  | None =>
      err ← Delete_range namespace containers;
      match err with
      | Some e => mret (None, Some e)
      | None => mret (Some (CreatePodAPIModel namespace name containers), None)
      end
  end.

Definition List (req : podsapi.ListPodsRequest)
  : PodsExec CS (option (list ApiPod) * option error) :=
  '(p, err) ← ask (CallGetPods (podsapi.list_Namespace req))
                  (client_GetPods (podsapi.list_Namespace req));
  match err with
  | Some e => mret (None, Some e)
  | None => mret (Some (MapPodsToAPIModel p), None)
  end.

End Handlers.
End PodsServer.

(** The client's state after the given containers were started, or
    stopped, one after the other without an error; [None] if a call
    fails on the way. *)
Fixpoint started {CS : Type} `{client : PodsClient CS} (namespace : string)
    (containers : list Container) (s : CS) : option CS :=
  match containers with
  | [] => Some s
  | c :: rest =>
      match client_StartContainer namespace (Name c) (Tty c) s with
      | (None, s') => started namespace rest s'
      | (Some _, _) => None
      end
  end.

Fixpoint stopped {CS : Type} `{client : PodsClient CS} (namespace : string)
    (containers : list Container) (s : CS) : option CS :=
  match containers with
  | [] => Some s
  | c :: rest =>
      match client_StopContainer namespace (Name c) s with
      | (None, s') => stopped namespace rest s'
      | (Some _, _) => None
      end
  end.

Definition start_call (namespace : string) (c : Container) : PodsCall :=
  CallStartContainer namespace (Name c) (Tty c).

Definition stop_call (namespace : string) (c : Container) : PodsCall :=
  CallStopContainer namespace (Name c).

(** A fresh world: the client in a given state, no call made. *)
Definition fresh {CS : Type} (s : CS) : World CS :=
  {| provider := s; history := [] |}.

(** A scripted client: it knows the containers [web] and [db], and
    answers the calls with the errors of its script, one per call, and
    with no error once the script is used up. *)
Definition scripted_answer (script : list (option error))
  : option error * list (option error) :=
  match script with
  | [] => (None, [])
  | answer :: rest => (answer, rest)
  end.

Definition scripted_client : PodsClient (list (option error)) :=
  {| client_GetContainers := λ _ _ script,
       let '(err, rest) := scripted_answer script in (([web; db], err), rest);
     client_StartContainer := λ _ _ _ script, scripted_answer script;
     client_StopContainer := λ _ _ script, scripted_answer script;
     client_GetPods := λ _ script,
       let '(err, rest) := scripted_answer script in (([sample_pod], err), rest) |}.

(** A wire model for the samples: namespace, pod name, container names. *)
Definition sample_mapping : PodMapping (string * string * list string) :=
  {| CreatePodAPIModel := λ namespace name containers,
       (namespace, name, Name <$> containers);
     MapPodsToAPIModel := λ p,
       (λ pod, (Namespace (Metadata pod), PodName (Metadata pod),
                Name <$> Containers (Spec pod))) <$> p |}.

(** ** Vocabulary for further properties of [Create] *)

(** A record as it is later: the same container and image, and complete
    if it was. *)
Definition record_le (f f' : progress.ImageFetch) : Prop :=
  progress.ContainerID f' = progress.ContainerID f
  ∧ progress.Image f' = progress.Image f
  ∧ (progress.Complete f = true → progress.Complete f' = true).

(** A tracker as it is later: every record is still at its index. *)
Definition tracker_le (ps ps' : list progress.ImageFetch) : Prop :=
  ∀ i f, ps !! i = Some f → ∃ f', ps' !! i = Some f' ∧ record_le f f'.

(** The steps of the calling goroutine itself, the reports of the
    client apart. *)
Definition is_pipeline_step (ev : Server.Event) : bool :=
  match ev with
  | Server.EvRange | Server.EvPullImageReturns _
  | Server.EvCreateContainerReturns _ | Server.EvCloseDone => true
  | _ => false
  end.

(** A bound on the steps the calling goroutine has left. *)
Definition steps_left (pc : Server.PC) : nat :=
  match pc with
  | Server.LoopHead rest => 3 * length rest + 2
  | Server.InPullImage _ _ rest => 3 * length rest + 4
  | Server.InCreateContainer _ rest => 3 * length rest + 3
  | Server.Deferred _ => 1
  | Server.Returned _ => 0
  end.

(** ** The console state reporter ([state/console.go]) *)

Module state.

(** [model.DeviceState], as far as the reporter reads it. *)
Record DeviceState : Type := {
  Pods : list Pod
}.

(** [map[string]*model.DeviceState]: the states by namespace.  A value
    is a pointer; [None] is the nil pointer. *)
Abbreviation States := (gmap string (option DeviceState)).

(** What the logger receives: level, fields, message. *)
Inductive Level : Type :=
| InfoLevel
| ErrorLevel.

Record Entry : Type := {
  level : Level;
  fields : list (string * string);
  message : string
}.

Record ConsoleStateReporter (Info Client : Type) : Type := {
  info : Info;
  client : Client;
  interval : Z
}.
Arguments info {Info Client} c.
Arguments client {Info Client} c.
Arguments interval {Info Client} c.

Definition NewConsoleStateReporter {Info Client : Type}
    (info : Info) (client : Client) (interval : Z)
  : ConsoleStateReporter Info Client :=
  {| info := info; client := client; interval := interval |}.

Definition nil_dereference : string :=
  "invalid memory address or nil pointer dereference".

(** The line logged for one namespace: the number of its pods, under
    the words the format gives it. *)
Definition state_update (namespace : string) (st : DeviceState) : Entry :=
  {| level := InfoLevel;
     fields := [("nr of pods", pretty (length (Pods st)) +:+ " containers")];
     message := namespace +:+ " state update" |}.

(** The loop of [report] over the entries of the map, in the order in
    which the iteration yields them; [state.Pods] on a nil pointer
    panics. *)
Fixpoint report_range (entries : list (string * option DeviceState))
  : outcome (option error) * list Entry :=
  match entries with
  | [] => (Ret None, [])
  | (_, None) :: _ => (Panic nil_dereference, [])
  | (namespace, Some st) :: rest =>
      let '(result, lines) := report_range rest in
      (result, state_update namespace st :: lines)
  end.

(** [report]: the order of iteration over a map is not fixed by the
    language; the model takes the order of [map_to_list], and the
    properties below do not depend on it. *)
Definition report {Info Client : Type} (r : ConsoleStateReporter Info Client)
    (info : Info) (states : States) : outcome (option error) * list Entry :=
  report_range (map_to_list states).

(** What a run of [Start] does, besides fetching: log and sleep. *)
Inductive Effect : Type :=
| Logged (e : Entry)
| Slept (d : Z).

Definition fetch_failed (err : error) : Entry :=
  {| level := ErrorLevel;
     fields := [];
     message := "Error while reporting current device state: " +:+ Error err |}.

(** One round of the loop of [Start], given what [getCurrentState]
    (not part of the sources at hand) came back with. *)
Definition Start_round {Info Client : Type} (r : ConsoleStateReporter Info Client)
    (fetched : States * option error) : outcome unit * list Effect :=
  match fetched with
  | (_, Some err) => (Ret (), [Logged (fetch_failed err); Slept (interval r)])
  | (states, None) =>
      match report r (info r) states with
      | (Ret _, lines) => (Ret (), (Logged <$> lines) ++ [Slept (interval r)])
      | (Panic reason, lines) => (Panic reason, Logged <$> lines)
      end
  end.

(** The loop of [Start] has no exit; a run is given by the rounds it
    has gone through, one per result of [getCurrentState]. *)
Fixpoint Start {Info Client : Type} (r : ConsoleStateReporter Info Client)
    (fetches : list (States * option error)) : outcome unit * list Effect :=
  match fetches with
  | [] => (Ret (), [])
  | fetched :: rest =>
      match Start_round r fetched with
      | (Ret _, effects) =>
          let '(result, more) := Start r rest in (result, effects ++ more)
      | (Panic reason, effects) => (Panic reason, effects)
      end
  end.

Definition slept (e : Effect) : option Z :=
  match e with Slept d => Some d | Logged _ => None end.

Definition logged_error (e : Effect) : option string :=
  match e with
  | Logged {| level := ErrorLevel; message := m |} => Some m
  | _ => None
  end.

Definition logged_info (e : Effect) : option Entry :=
  match e with
  | Logged ({| level := InfoLevel |} as entry) => Some entry
  | _ => None
  end.

(** No state of a fetch that succeeded is a nil pointer. *)
Definition no_nil (fetched : States * option error) : Prop :=
  fetched.2 = None → ∀ namespace, fetched.1 !! namespace ≠ Some None.

End state.

(** ** [NewServer] and [Server.Serve] *)

Module apiserver.

Inductive Service : Type :=
| PodsService
| ContainersService.

(** The gRPC server, as far as [NewServer] builds it: the services
    registered on it, in order. *)
Record GrpcServer : Type := {
  services : list Service
}.

Definition grpc_NewServer : GrpcServer := {| services := [] |}.

Definition Register (svc : Service) (g : GrpcServer) : GrpcServer :=
  {| services := services g ++ [svc] |}.

Record Listener : Type := {
  network : string;
  address : string
}.

Record Server (Client : Type) : Type := {
  client : Client;
  grpc : GrpcServer;
  listen : string
}.
Arguments client {Client} s.
Arguments grpc {Client} s.
Arguments listen {Client} s.

Definition NewServer {Client : Type} (listen : string) (client : Client)
  : Server Client :=
  {| client := client;
     listen := listen;
     grpc := Register ContainersService (Register PodsService grpc_NewServer) |}.

(** [net.Listen] and [grpc.Server.Serve], chosen by the environment. *)
Class Transport : Type := {
  net_Listen : string → string → option error;
  grpc_Serve : GrpcServer → Listener → option error
}.

Inductive NetEffect : Type :=
| Listened (network address : string)
| Served (g : GrpcServer) (lis : Listener).

Definition Serve `{Transport} {Client : Type} (s : Server Client)
  : option error * list NetEffect :=
  match net_Listen "tcp" (listen s) with
  | Some err =>
      (Wrapf (Some err)
         ("Failed to start API server to listen [" +:+ listen s +:+ "]"),
       [Listened "tcp" (listen s)])
  | None =>
      let lis := {| network := "tcp"; address := listen s |} in
      (grpc_Serve (grpc s) lis, [Listened "tcp" (listen s); Served (grpc s) lis])
  end.

End apiserver.

(** Sample states: two namespaces, one of them without pods. *)
Definition busy_state : state.DeviceState :=
  {| state.Pods := [sample_pod; empty_pod] |}.

Definition idle_state : state.DeviceState :=
  {| state.Pods := [] |}.

Definition sample_states : state.States :=
  {[ "ns1" := Some busy_state; "ns2" := Some idle_state ]}.

Definition sample_reporter : state.ConsoleStateReporter unit unit :=
  state.NewConsoleStateReporter () () 5000000000.

(** ** Metadata as it comes off the wire *)





(** ** Proof steps *)

(** Unfold a handler down to the steps of its computation. *)
Ltac run_handler :=
  unfold exec, Server.Attach, Server.Signal, FromIncomingContext,
    mbind, Exec_bind, mret, Exec_ret, lift, invoke; simpl.

(** Split a step that was taken into the cases of [Server.step]. *)
Ltac step_cases Hstep :=
  unfold Server.step in Hstep;
  repeat match type of Hstep with
    | context [match ?x with _ => _ end] => destruct x eqn:?; try discriminate
    end;
  injection Hstep as <-.

(** * Properties *)

(** ** [getMetadataValue] *)

Lemma getMetadataValue_absent (md : MD) (key : string) :
  md !! key = None → getMetadataValue md key = Ret "".
Proof. intros Hk. unfold getMetadataValue. by rewrite Hk. Qed.

Lemma getMetadataValue_first (md : MD) (key v : string) (vs : list string) :
  md !! key = Some (v :: vs) → getMetadataValue md key = Ret v.
Proof. intros Hk. unfold getMetadataValue. by rewrite Hk. Qed.

Lemma getMetadataValue_no_values (md : MD) (key : string) :
  md !! key = Some [] → getMetadataValue md key = Panic index_panic.
Proof. intros Hk. unfold getMetadataValue. by rewrite Hk. Qed.

(** The value is a panic or a string; it is a panic exactly when the
    key is bound to no values. *)
Lemma getMetadataValue_cases (md : MD) (key : string) :
  (md !! key = Some [] ∧ getMetadataValue md key = Panic index_panic)
  ∨ (∃ v, getMetadataValue md key = Ret v ∧ md !! key ≠ Some []
          ∧ (v = "" ↔ md !! key = None ∨ ∃ vs, md !! key = Some ("" :: vs))).
Proof.
  unfold getMetadataValue. destruct (md !! key) as [[|v vs]|] eqn:Hk.
  - by left.
  - right. exists v. split_and!; [done|done|]. split.
    + intros ->. right. by exists vs.
    + intros [?|[? ?]]; congruence.
  - right. exists "". split_and!; [done|done|]. split; [by left|done].
Qed.

(** ** [Server.Attach] *)

Section AttachProperties.

Context `{client : RuntimeClient}.

Lemma Attach_without_metadata (server : AttachServer) :
  incoming server = None →
  ∃ err, exec (Server.Attach server) = (Ret (Some err), []).
Proof. intros Hmd. run_handler. rewrite Hmd. eauto. Qed.

(** Whatever the metadata, a call that does not pass the checks leaves
    the call log empty: the client is reached on one path only. *)
Lemma Attach_reaches_client (server : AttachServer) :
  (∃ md ns id nss ids,
      incoming server = Some md
      ∧ md !! "namespace" = Some (ns :: nss) ∧ ns ≠ ""
      ∧ md !! "container" = Some (id :: ids) ∧ id ≠ ""
      ∧ exec (Server.Attach server)
        = (Ret (client_Attach ns id (attach_io server)),
           [CallAttach ns id (attach_io server)]))
  ∨ (∃ err, exec (Server.Attach server) = (Ret (Some err), []))
  ∨ exec (Server.Attach server) = (Panic index_panic, []).
Proof.
  run_handler. destruct (incoming server) as [md|] eqn:Hmd; [|eauto].
  unfold getMetadataValue.
  destruct (md !! "namespace") as [[|ns nss]|] eqn:Hns; simpl; [by eauto| |].
  - destruct (md !! "container") as [[|id ids]|] eqn:Hid; simpl; [by eauto| |].
    + destruct (decide (ns = "")); [by eauto|].
      destruct (decide (id = "")); [by eauto|].
      left. by exists md, ns, id, nss, ids.
    + destruct (decide (ns = "")); by eauto.
  - destruct (md !! "container") as [[|id ids]|] eqn:Hid; simpl; by eauto.
Qed.

(** With no key bound to an empty list of values, a missing or empty
    name is answered with an error and the client is left alone. *)
Lemma Attach_validation_error (server : AttachServer) (md : MD) :
  incoming server = Some md →
  md !! "namespace" ≠ Some [] →
  md !! "container" ≠ Some [] →
  (md !! "namespace" = None ∨ (∃ vs, md !! "namespace" = Some ("" :: vs))
   ∨ md !! "container" = None ∨ (∃ vs, md !! "container" = Some ("" :: vs))) →
  ∃ err, exec (Server.Attach server) = (Ret (Some err), []).
Proof.
  intros Hmd Hns Hid Hbad.
  destruct (Attach_reaches_client server)
    as [(md' & ns & id & nss & ids & Hmd' & Hns' & ? & Hid' & ? & _)|[?|Hp]]; [|done|].
  - assert (md' = md) as -> by congruence.
    destruct Hbad as [?|[[? ?]|[?|[? ?]]]]; congruence.
  - exfalso. revert Hp. run_handler. rewrite Hmd. unfold getMetadataValue.
    destruct (md !! "namespace") as [[|ns nss]|]; [done| |]; simpl;
      (destruct (md !! "container") as [[|id ids]|]; [done| |]); simpl;
      repeat case_decide; done.
Qed.

End AttachProperties.

(** A context built by hand, with [container] bound to an empty list of
    values and no [namespace]: both values are read before either is
    checked, and reading the second panics.  The client is not invoked. *)
Theorem Attach_missing_namespace_panics `{client : RuntimeClient} :
  let md : MD := {[ "container" := [] ]} in
  md !! "namespace" = None
  ∧ exec (Server.Attach (attach_server (Some md))) = (Panic index_panic, []).
Proof. split; reflexivity. Qed.



(** C9.  For a call whose metadata carries a non-empty namespace and a
    non-empty container name, the client's attach primitive is invoked
    once, with those names, one reader over the stream as input and two
    writers over the stream as outputs, tagged [false] for process output
    and [true] for process error; what [Attach] returns is what the
    client returned. *)
Theorem Attach_binds_three_channels `{client : RuntimeClient}
    (server : AttachServer) (md : MD) (ns id : string) (nss ids : list string) :
  incoming server = Some md →
  md !! "namespace" = Some (ns :: nss) → ns ≠ "" →
  md !! "container" = Some (id :: ids) → id ≠ "" →
  let io := {| Stdin := stream.NewReader server;
               Stdout := stream.NewWriter server false;
               Stderr := stream.NewWriter server true |} in
  exec (Server.Attach server)
  = (Ret (client_Attach ns id io), [CallAttach ns id io])
  ∧ stream.tag (Stdout io) = false ∧ stream.tag (Stderr io) = true.
Proof.
  intros Hmd Hns ? Hid ?. split; [|done].
  run_handler. rewrite Hmd. unfold getMetadataValue. rewrite Hns, Hid. simpl.
  by repeat case_decide.
Qed.

Lemma Attach_binds_three_channels_witness :
  let client := failing_client (errorString "EOF") in
  let md : MD := {[ "namespace" := ["ns1"]; "container" := ["c1"] ]} in
  let server := attach_server (Some md) in
  let io := {| Stdin := stream.NewReader server;
               Stdout := stream.NewWriter server false;
               Stderr := stream.NewWriter server true |} in
  exec (Server.Attach server)
  = (Ret (client_Attach "ns1" "c1" io), [CallAttach "ns1" "c1" io])
  ∧ stream.tag (Stdout io) = false ∧ stream.tag (Stderr io) = true.
Proof.
  intros client md server.
  apply (Attach_binds_three_channels server md "ns1" "c1" [] []);
    [reflexivity | reflexivity | discriminate | reflexivity | discriminate].
Defined.

(** C10.  When the metadata binds [namespace] or [container] to an empty
    list of values, [getMetadataValue] takes the first element of the
    empty list: it panics, and so does [Attach], in place of the
    validation error.  A key that is absent yields the empty string. *)
Theorem getMetadataValue_empty_list_panics `{client : RuntimeClient}
    (server : AttachServer) (md : MD) (key : string) :
  incoming server = Some md →
  key = "namespace" ∨ key = "container" →
  md !! key = Some [] →
  getMetadataValue md key = Panic index_panic
  ∧ exec (Server.Attach server) = (Panic index_panic, [])
  ∧ ∀ absent, md !! absent = None → getMetadataValue md absent = Ret "".
Proof.
  intros Hmd Hkey Hk. split_and!.
  - by apply getMetadataValue_no_values.
  - run_handler. rewrite Hmd. unfold getMetadataValue.
    destruct Hkey as [-> | ->]; rewrite Hk; simpl; [done|].
    by destruct (md !! "namespace") as [[|? ?]|].
  - apply getMetadataValue_absent.
Qed.

Lemma getMetadataValue_empty_list_panics_witness :
  let md : MD := {[ "namespace" := []; "container" := ["c1"] ]} in
  getMetadataValue md "namespace" = Panic index_panic
  ∧ exec (Server.Attach (client := accepting_client) (attach_server (Some md)))
    = (Panic index_panic, [])
  ∧ getMetadataValue md "tty" = Ret "".
Proof.
  intros md.
  destruct (getMetadataValue_empty_list_panics (client := accepting_client)
              (attach_server (Some md)) md "namespace")
    as (H1 & H2 & H3); [reflexivity | by left | reflexivity |].
  split_and!; [exact H1 | exact H2 | apply H3; reflexivity].
Defined.

(** ** [Server.Signal] *)

(** C7.  Every call reaches the client exactly once, with the namespace
    and the container identifier of the request and a signal whose
    number is the number of the request; an error of the client comes
    back as it is, with no response, and no error comes back as an empty
    response. *)
Theorem Signal_forwards_unchanged `{client : RuntimeClient}
    (req : containers.SignalRequest) :
  ∃ sig,
    syscall.number sig = containers.Signal req
    ∧ snd (exec (Server.Signal req))
      = [CallSignal (containers.Namespace req) (containers.ContainerID req) sig]
    ∧ fst (exec (Server.Signal req))
      = Ret (match client_Signal (containers.Namespace req)
                     (containers.ContainerID req) sig with
             | Some err => (None, Some err)
             | None => (Some containers.EmptySignalResponse, None)
             end).
Proof.
  exists (syscall.ToSignal (containers.Signal req)). split_and!; [done| |].
  - run_handler. by destruct (client_Signal _ _ _).
  - run_handler. by destruct (client_Signal _ _ _).
Qed.

(** C6 (counterexample).  No operating system numbers a signal [-1], and
    yet the call is not rejected: the client is invoked with that number
    and its success is returned. *)
Lemma Signal_forwards_unrecognized_number :
  exec (Server.Signal (client := accepting_client)
          {| containers.Namespace := "ns1"; containers.ContainerID := "c1";
             containers.Signal := -1 |})
  = (Ret (Some containers.EmptySignalResponse, None),
     [CallSignal "ns1" "c1" (syscall.ToSignal (-1))]).
Proof. reflexivity. Qed.

(** C6 (amended).  [Signal] does not validate the number: whatever it
    is, the client is invoked with it, before anything else happens, and
    the call fails only with an error of the client. *)
Theorem Signal_never_validates `{client : RuntimeClient}
    (req : containers.SignalRequest) :
  snd (exec (Server.Signal req))
  = [CallSignal (containers.Namespace req) (containers.ContainerID req)
       (syscall.ToSignal (containers.Signal req))]
  ∧ ∀ resp err, fst (exec (Server.Signal req)) = Ret (resp, Some err) →
      client_Signal (containers.Namespace req) (containers.ContainerID req)
        (syscall.ToSignal (containers.Signal req)) = Some err.
Proof.
  split.
  - run_handler. by destruct (client_Signal _ _ _).
  - intros resp err. run_handler. destruct (client_Signal _ _ _); simpl; congruence.
Qed.

Lemma Signal_never_validates_witness :
  let client := failing_client (errorString "no such process") in
  let req := {| containers.Namespace := "ns1"; containers.ContainerID := "c1";
                containers.Signal := 4096 |} in
  snd (exec (Server.Signal req))
  = [CallSignal "ns1" "c1" (syscall.ToSignal 4096)]
  ∧ client_Signal "ns1" "c1" (syscall.ToSignal 4096)
    = Some (errorString "no such process").
Proof.
  intros client req.
  destruct (Signal_never_validates (client := client) req) as [Hcalls Herr].
  split; [exact Hcalls|]. apply (Herr None). reflexivity.
Defined.

(** ** [Server.Create]: the states of a call *)

Lemma completed_calls_app (pod : Pod) (i : nat) (pre rest : list Container) :
  completed_calls pod i (pre ++ rest)
  = completed_calls pod i pre ++ completed_calls pod (i + length pre) rest.
Proof.
  revert i. induction pre as [|c pre IH]; intros i; simpl.
  - by rewrite Nat.add_0_r.
  - rewrite IH. do 2 f_equal. simpl. by rewrite Nat.add_succ_r.
Qed.

Lemma completed_calls_snoc (pod : Pod) (pre : list Container) (c : Container) :
  completed_calls pod 0 (pre ++ [c])
  = completed_calls pod 0 pre
    ++ [CallPullImage (Namespace (Metadata pod)) (Image c) (length pre);
        CallCreateContainer pod c].
Proof. by rewrite completed_calls_app. Qed.

Lemma completed_calls_length (pod : Pod) (i : nat) (cs : list Container) :
  length (completed_calls pod i cs) = 2 * length cs.
Proof. revert i. induction cs as [|c cs IH]; intros i; simpl; [done|]. rewrite IH. lia. Qed.

Lemma run_app (pod : Pod) (st : Server.State) (t1 t2 : list Server.Event) :
  Server.run pod st (t1 ++ t2)
  = Server.run pod st t1 ≫= λ st', Server.run pod st' t2.
Proof.
  revert st. induction t1 as [|ev t1 IH]; intros st; simpl; [done|].
  destruct (Server.step pod st ev); [apply IH|done].
Qed.

Lemma run_app_Some (pod : Pod) (st st' : Server.State) (t1 t2 : list Server.Event) :
  Server.run pod st (t1 ++ t2) = Some st' ↔
  ∃ mid, Server.run pod st t1 = Some mid ∧ Server.run pod mid t2 = Some st'.
Proof.
  rewrite run_app. destruct (Server.run pod st t1) as [mid|]; simpl.
  - split; [by eauto|]. by intros (? & [= <-] & ?).
  - split; [done|]. by intros (? & ? & ?).
Qed.

Lemma run_cons_Some (pod : Pod) (st st' : Server.State) (ev : Server.Event)
    (trace : list Server.Event) :
  Server.run pod st (ev :: trace) = Some st' ↔
  ∃ mid, Server.step pod st ev = Some mid ∧ Server.run pod mid trace = Some st'.
Proof.
  simpl. destruct (Server.step pod st ev) as [mid|].
  - split; [by eauto|]. by intros (? & [= <-] & ?).
  - split; [done|]. by intros (? & ? & ?).
Qed.

Lemma run_snoc (pod : Pod) (st st' : Server.State)
    (trace : list Server.Event) (ev : Server.Event) :
  Server.run pod st (trace ++ [ev]) = Some st' ↔
  ∃ mid, Server.run pod st trace = Some mid ∧ Server.step pod mid ev = Some st'.
Proof.
  rewrite run_app. split.
  - destruct (Server.run pod st trace) as [mid|]; simpl; [|done].
    destruct (Server.step pod mid ev) eqn:Hs; [|done]. intros [= <-]. eauto.
  - intros (mid & -> & Hs). simpl. by rewrite Hs.
Qed.

Lemma tracks_Report (c : Container) (f : progress.ImageFetch)
    (layers : list progress.Layer) :
  tracks c f → tracks c (progress.Report layers f).
Proof. by intros [? ?]. Qed.

Lemma completed_AllDone (c : Container) (f : progress.ImageFetch) :
  tracks c f → completed c (progress.AllDone f).
Proof. by intros [? ?]. Qed.

(** The local variable [progress] points at the last record of the slice. *)
Lemma alter_last {A} (g : A → A) (l : list A) (x : A) (i : nat) :
  i = length l → alter g i (l ++ [x]) = l ++ [g x].
Proof. intros ->. rewrite alter_app_r_alt by lia. by rewrite Nat.sub_diag. Qed.

Lemma step_shape (pod : Pod) (st st' : Server.State) (ev : Server.Event) :
  pipeline_shape pod (Server.pc st) (Server.progresses st) (Server.calls st) →
  Server.step pod st ev = Some st' →
  pipeline_shape pod (Server.pc st') (Server.progresses st') (Server.calls st').
Proof.
  destruct st as [pc ps d b cl se w]. simpl. intros Hsh Hstep.
  step_cases Hstep; simpl in *; subst; try done; inversion Hsh; subst; clear Hsh.
  - constructor. rewrite app_nil_r in *. subst. by apply exit_ok.
  - match goal with H : Forall2 _ _ _ |- _ =>
      rewrite <- (Forall2_length _ _ _ H) end.
    by eapply shape_pull.
  - rewrite alter_last by by eapply Forall2_length.
    eapply shape_pull; eauto using tracks_Report.
  - constructor. by eapply exit_pull_failed.
  - rewrite alter_last by by eapply Forall2_length.
    rewrite <- app_assoc. simpl. rewrite <- completed_calls_snoc.
    eapply shape_create; eauto using completed_AllDone.
  - constructor. by eapply exit_create_failed.
  - match goal with H : Containers _ = _ |- _ =>
      rewrite (cons_middle _ _ _), app_assoc in H end.
    constructor; [done|]. apply Forall2_app; [done|]. by constructor.
  - by constructor.
Qed.

Lemma init_invariant (pod : Pod) : invariant pod (Server.init pod).
Proof.
  split; simpl.
  - by apply (shape_loop pod [] _ []).
  - split; [done|]. by intros [? ?].
  - done.
Qed.

Lemma step_invariant (pod : Pod) (st st' : Server.State) (ev : Server.Event) :
  invariant pod st → Server.step pod st ev = Some st' → invariant pod st'.
Proof.
  intros [Hsh Hdone Hstop] Hstep. split; [by eapply step_shape| |].
  - clear Hsh. destruct st as [pc ps d b cl se w]. simpl in *.
    step_cases Hstep; simpl in *; subst; try done;
      try (split; [intros ->; destruct Hdone as [[? ?] _]; done | intros [? ?]; done]).
    split; eauto.
  - clear Hsh. destruct st as [pc ps d b cl se w]. simpl in *.
    step_cases Hstep; simpl in *; subst; try done;
      try (intros ->; destruct Hstop as [-> _]; [done|];
           destruct Hdone as [[? ?] _]; done).
    intros _. split; [done|]. by eexists.
Qed.

Lemma run_invariant (pod : Pod) (st st' : Server.State) (trace : list Server.Event) :
  invariant pod st → Server.run pod st trace = Some st' → invariant pod st'.
Proof.
  revert st. induction trace as [|ev trace IH]; intros st Hinv; simpl.
  - by intros [= <-].
  - destruct (Server.step pod st ev) eqn:Hs; [|done].
    eauto using step_invariant.
Qed.

Lemma Create_invariant (pod : Pod) (trace : list Server.Event) (st : Server.State) :
  Server.Create pod trace = Some st → invariant pod st.
Proof. apply run_invariant, init_invariant. Qed.

Lemma count_snoc (kind : Server.Event → bool) (trace : list Server.Event)
    (ev : Server.Event) :
  count kind (trace ++ [ev]) = count kind trace + (if kind ev then 1 else 0).
Proof.
  unfold count. rewrite List.filter_app, length_app. simpl.
  by destruct (kind ev).
Qed.

Lemma step_accounted (pod : Pod) (trace : list Server.Event)
    (st st' : Server.State) (ev : Server.Event) :
  invariant pod st → accounted trace st →
  Server.step pod st ev = Some st' → accounted (trace ++ [ev]) st'.
Proof.
  intros [_ Hdone _] [Hc Hf Hx Hs Hw] Hstep.
  destruct st as [pc ps d b cl se w]. simpl in *.
  step_cases Hstep; split; simpl in *; subst;
    rewrite ?count_snoc, ?omap_app, ?fmap_app, ?length_app; simpl;
    rewrite ?Hc, ?Hf, ?Hx, <- ?Hs, ?Hw, ?app_nil_r; simpl; try done; try lia.
  all: try (destruct d; [destruct Hdone as [[? ?] _]; done | done]).
  all: destruct sendErr; simpl; by rewrite ?app_nil_r.
Qed.

Lemma Create_nil (pod : Pod) : Server.Create pod [] = Some (Server.init pod).
Proof. done. Qed.

Lemma Create_snoc (pod : Pod) (trace : list Server.Event) (ev : Server.Event)
    (st' : Server.State) :
  Server.Create pod (trace ++ [ev]) = Some st' ↔
  ∃ st, Server.Create pod trace = Some st ∧ Server.step pod st ev = Some st'.
Proof. apply run_snoc. Qed.

Lemma Create_accounted (pod : Pod) (trace : list Server.Event) (st : Server.State) :
  Server.Create pod trace = Some st → accounted trace st.
Proof.
  revert st. induction trace as [|ev trace IH] using rev_ind; intros st.
  - intros [= <-]. by split.
  - intros (mid & Hmid & Hstep)%Create_snoc.
    eapply step_accounted; eauto using Create_invariant.
Qed.

(** Once the return value is set, the pipeline has stopped: the value,
    the tracker and the call log stay as they are. *)
Lemma step_exiting (pod : Pod) (ret : option error) (st st' : Server.State)
    (ev : Server.Event) :
  exiting ret st → Server.step pod st ev = Some st' →
  exiting ret st'
  ∧ Server.progresses st' = Server.progresses st
  ∧ Server.calls st' = Server.calls st.
Proof.
  intros Hex Hstep. destruct st as [pc ps d b cl se w].
  unfold exiting in *. simpl in *.
  step_cases Hstep; simpl in *; subst; try done;
    destruct Hex as [?|?]; simplify_eq; by eauto.
Qed.

Lemma run_exiting (pod : Pod) (ret : option error) (st st' : Server.State)
    (trace : list Server.Event) :
  exiting ret st → Server.run pod st trace = Some st' →
  exiting ret st'
  ∧ Server.progresses st' = Server.progresses st
  ∧ Server.calls st' = Server.calls st.
Proof.
  revert st. induction trace as [|ev trace IH]; intros st Hex; simpl.
  - by intros [= <-].
  - destruct (Server.step pod st ev) as [mid|] eqn:Hs; [|done]. intros Hrun.
    destruct (step_exiting _ _ _ _ _ Hex Hs) as (Hex' & Hp & Hc).
    destruct (IH mid Hex' Hrun) as (? & -> & ->). by rewrite Hp, Hc.
Qed.

(** A state in which [Create] has returned and the broadcaster has
    stopped is the end of the call: no step is left. *)
Lemma stopped_is_terminal (pod : Pod) (st : Server.State) (ev : Server.Event) :
  invariant pod st → Server.broadcaster st = Server.Stopped →
  Server.step pod st ev = None.
Proof.
  intros [_ Hdone Hstop] Hb. destruct (Hstop Hb) as [Hd _].
  apply Hdone in Hd as [ret Hpc].
  unfold Server.step. rewrite Hpc, Hb. by destruct ev as [| | [?|] | [?|] | | |].
Qed.

(** ** Every call can end *)

Lemma Create_app (pod : Pod) (before after : list Server.Event)
    (st1 st : Server.State) :
  Server.Create pod before = Some st1 →
  Server.run pod st1 after = Some st →
  Server.Create pod (before ++ after) = Some st.
Proof. unfold Server.Create. intros H1 H2. rewrite run_app, H1. exact H2. Qed.

(** A tick may still win the race once the signal has fired: the timer
    case of the [select] stays open until the other case is taken. *)
Lemma tick_after_close (pod : Pod) (st : Server.State) (sendErr : option error) :
  Server.broadcaster st = Server.Reporting →
  Server.step pod st (Server.EvTimer sendErr)
  = Some (Server.send sendErr Server.Reporting st).
Proof. intros Hb. unfold Server.step. rewrite Hb. by destruct (Server.pc st). Qed.

Lemma final_after_close (pod : Pod) (st : Server.State) (sendErr : option error) :
  Server.broadcaster st = Server.Reporting → Server.done st = true →
  Server.step pod st (Server.EvDoneReceived sendErr)
  = Some (Server.send sendErr Server.Stopped st).
Proof. intros Hb Hd. unfold Server.step. rewrite Hb, Hd. by destruct (Server.pc st). Qed.

Lemma count_app (kind : Server.Event → bool) (t1 t2 : list Server.Event) :
  count kind (t1 ++ t2) = count kind t1 + count kind t2.
Proof. unfold count. by rewrite List.filter_app, length_app. Qed.

Lemma finish_loop_no_failure (rest : list Container) :
  count is_failure (finish_loop rest) = 0.
Proof.
  unfold finish_loop. rewrite count_app. simpl.
  induction rest as [|c rest IH]; [done|]. by cbn.
Qed.

Lemma finish_no_failure (st : Server.State) : count is_failure (finish st) = 0.
Proof.
  unfold finish, finish_pipeline, finish_broadcaster. rewrite count_app.
  assert (∀ rest ev, is_failure ev = false →
            count is_failure (ev :: finish_loop rest) = 0) as Hcons.
  { intros rest ev Hev. change (ev :: finish_loop rest) with ([ev] ++ finish_loop rest).
    rewrite count_app, finish_loop_no_failure. unfold count. simpl. by rewrite Hev. }
  destruct (Server.pc st), (Server.broadcaster st);
    rewrite ?Hcons, ?finish_loop_no_failure; try done.
  all: change (?a :: ?b :: finish_loop ?r) with ([a] ++ b :: finish_loop r);
    by rewrite count_app, Hcons.
Qed.

(** From the head of the loop, with every call returning without
    error, [Create] returns [nil]; the broadcaster is not involved. *)
Lemma run_finish_loop (pod : Pod) (rest : list Container) (st : Server.State) :
  Server.pc st = Server.LoopHead rest →
  ∃ st', Server.run pod st (finish_loop rest) = Some st'
    ∧ Server.pc st' = Server.Returned None
    ∧ Server.done st' = true
    ∧ Server.broadcaster st' = Server.broadcaster st.
Proof.
  revert st. induction rest as [|c rest IH]; intros st Hpc.
  - unfold finish_loop. simpl. unfold Server.step. rewrite Hpc. simpl. by eexists.
  - destruct st as [pc ps d b cl se w]. simpl in Hpc. subst pc.
    edestruct (IH (Server.pipeline
                     {| Server.pc := Server.LoopHead (c :: rest);
                        Server.progresses := ps; Server.done := d;
                        Server.broadcaster := b; Server.calls := cl;
                        Server.sent := se; Server.warnings := w |}
                     (Server.LoopHead rest)
                     (alter progress.AllDone (length ps)
                        (ps ++ [progress.NewImageFetch (Name c) (Image c)]))
                     ((cl ++ [CallPullImage (Namespace (Metadata pod)) (Image c)
                                (length ps)])
                        ++ [CallCreateContainer pod c])))
      as (st' & Hrun & ?); [done|].
    exists st'. split; [|done]. exact Hrun.
Qed.

(** With every call still to come returning without error, [Create]
    returns: the value that was set, or [nil] if none was. *)
Lemma run_finish_pipeline (pod : Pod) (st : Server.State) :
  invariant pod st →
  ∃ mid ret, Server.run pod st (finish_pipeline st) = Some mid
    ∧ Server.pc mid = Server.Returned ret
    ∧ Server.done mid = true
    ∧ Server.broadcaster mid = Server.broadcaster st
    ∧ ∀ ret', exiting ret' st → ret' = ret.
Proof.
  intros [_ Hdone _]. unfold finish_pipeline.
  destruct (Server.pc st) as [rest|c p rest|c rest|ret|ret] eqn:Hpc.
  - destruct (run_finish_loop pod rest st Hpc) as (mid & ? & ? & ? & ?).
    exists mid, None. split_and!; try done. intros ? [?|?]; congruence.
  - destruct st as [pc ps d b cl se w]. simpl in *. subst pc.
    edestruct (run_finish_loop pod rest) as (mid & Hrun & ? & ? & ?);
      [|exists mid, None; split_and!;
         [unfold Server.step; simpl; exact Hrun|done..|]]; [done|].
    intros ? [?|?]; simpl in *; congruence.
  - destruct st as [pc ps d b cl se w]. simpl in *. subst pc.
    edestruct (run_finish_loop pod rest) as (mid & Hrun & ? & ? & ?);
      [|exists mid, None; split_and!;
         [unfold Server.step; simpl; exact Hrun|done..|]]; [done|].
    intros ? [?|?]; simpl in *; congruence.
  - exists (Server.close_done st ret), ret. simpl. unfold Server.step. rewrite Hpc.
    split_and!; try done. intros ? [?|?]; congruence.
  - exists st, ret. simpl. split_and!; try done.
    + apply Hdone. by eexists.
    + intros ? [?|?]; congruence.
Qed.

(** Whatever point a call has reached, it can end: the client calls
    still to come may all return, the deferred close then runs, and the
    broadcaster receives the signal.  The value returned is the one that
    was set, if one was. *)
Lemma Create_can_end (pod : Pod) (trace : list Server.Event) (st : Server.State) :
  Server.Create pod trace = Some st →
  ∃ st', Server.Create pod (trace ++ finish st) = Some st'
    ∧ Server.broadcaster st' = Server.Stopped
    ∧ (∃ ret, Server.returned st' = Some ret)
    ∧ ∀ ret, exiting ret st → Server.returned st' = Some ret.
Proof.
  intros Hst. pose proof (Create_invariant _ _ _ Hst) as Hinv.
  destruct (run_finish_pipeline pod st Hinv)
    as (mid & ret & Hmid & Hpc & Hd & Hb & Hret).
  unfold finish, finish_broadcaster.
  destruct (Server.broadcaster st) eqn:Hbst.
  - exists (Server.send None Server.Stopped mid). split_and!.
    + eapply Create_app; [done|]. apply run_app_Some. exists mid. split; [done|].
      apply run_cons_Some. eexists. split; [|done].
      apply final_after_close; congruence.
    + done.
    + exists ret. unfold Server.returned. simpl. by rewrite Hpc.
    + intros ret' Hex. rewrite (Hret _ Hex). unfold Server.returned. simpl. by rewrite Hpc.
  - exists mid. rewrite app_nil_r. split_and!.
    + by eapply Create_app.
    + by rewrite Hb.
    + exists ret. unfold Server.returned. by rewrite Hpc.
    + intros ret' Hex. rewrite (Hret _ Hex). unfold Server.returned. by rewrite Hpc.
Qed.

(** ** The pipeline at a failure *)

(** The state a failed pull or a failed creation leaves behind, at any
    later point of the call. *)
Lemma failure_shape (pod : Pod) (before after : list Server.Event)
    (ev : Server.Event) (err : error) (st1 st : Server.State) :
  Server.Create pod before = Some st1 →
  ev = Server.EvPullImageReturns (Some err)
    ∨ ev = Server.EvCreateContainerReturns (Some err) →
  Server.run pod st1 (ev :: after) = Some st →
  Server.progresses st = Server.progresses st1
  ∧ Server.calls st = Server.calls st1
  ∧ ∃ pre c rest ps f,
      Containers (Spec pod) = pre ++ c :: rest
      ∧ Forall2 completed pre ps
      ∧ Server.progresses st = ps ++ [f]
      ∧ tracks c f
      ∧ ((ev = Server.EvPullImageReturns (Some err)
          ∧ exiting (Some (pull_failure c err)) st
          ∧ progress.Complete f = false
          ∧ Server.calls st
            = completed_calls pod 0 pre
                ++ [CallPullImage (Namespace (Metadata pod)) (Image c) (length pre)])
         ∨ (ev = Server.EvCreateContainerReturns (Some err)
            ∧ exiting (Some (create_failure c err)) st
            ∧ progress.Complete f = true
            ∧ Server.calls st = completed_calls pod 0 (pre ++ [c]))).
Proof.
  intros Hst1 Hev Hrun. pose proof (Create_invariant _ _ _ Hst1) as [Hsh _ _].
  simpl in Hrun. destruct (Server.step pod st1 ev) as [st2|] eqn:Hstep; [|done].
  destruct st1 as [pc ps d b cl se w]. simpl in *.
  destruct Hev as [-> | ->]; unfold Server.step in Hstep; simpl in Hstep;
    destruct pc; try done; injection Hstep as <-;
    inversion Hsh; subst; clear Hsh.
  - edestruct run_exiting as (Hex & Hp & Hc); [|exact Hrun|]; [by left|].
    simpl in *. split_and!; [done..|].
    eexists _, _, _, _, _. split_and!; [done..|]. left. by rewrite Hc.
  - edestruct run_exiting as (Hex & Hp & Hc); [|exact Hrun|]; [by left|].
    simpl in *. split_and!; [done..|].
    match goal with H : completed _ _ |- _ => destruct H as [? ?] end.
    eexists _, _, _, _, _. split_and!; [done..|]. right. by rewrite Hc.
Qed.

Lemma pull_failure_names_image (c : Container) (err : error) :
  Error (pull_failure c err)
  = ("Failed to pull image [" +:+ Image c +:+ "]") +:+ ": " +:+ Error err
  ∧ Cause (pull_failure c err) = Cause err.
Proof. done. Qed.

Lemma create_failure_names_container (c : Container) (err : error) :
  Error (create_failure c err)
  = ("Failed to create container [" +:+ Name c +:+ "]") +:+ ": " +:+ Error err
  ∧ Cause (create_failure c err) = Cause err.
Proof. done. Qed.

(** C2.  When a pull or a creation fails at container [c], which stands
    after the containers [pre] in the pod (it is container k for
    k = length pre + 1), then at every later point of the call: the
    value to return is set to the error that wraps the failure with the
    image name of [c] (pull) or the container name of [c] (creation); the
    tracker and the call log are as the failure found them; the call log
    holds the two calls of each container of [pre] and the calls made
    for [c], so no later container was attempted; the records of the
    containers of [pre] are complete; the tracker has k records, none for
    a later container; the failure is the only one of the call; and the
    call can end from there, with [Create] returning that error. *)
Theorem pipeline_stops_at_first_failure (pod : Pod)
    (before after : list Server.Event) (ev : Server.Event) (err : error)
    (st1 st : Server.State) :
  Server.Create pod before = Some st1 →
  ev = Server.EvPullImageReturns (Some err)
    ∨ ev = Server.EvCreateContainerReturns (Some err) →
  Server.run pod st1 (ev :: after) = Some st →
  ∃ pre c rest,
    Containers (Spec pod) = pre ++ c :: rest
    ∧ ((ev = Server.EvPullImageReturns (Some err)
        ∧ exiting (Some (pull_failure c err)) st
        ∧ Server.calls st
          = completed_calls pod 0 pre
              ++ [CallPullImage (Namespace (Metadata pod)) (Image c) (length pre)])
       ∨ (ev = Server.EvCreateContainerReturns (Some err)
          ∧ exiting (Some (create_failure c err)) st
          ∧ Server.calls st = completed_calls pod 0 (pre ++ [c])))
    ∧ Server.calls st = Server.calls st1
    ∧ Server.progresses st = Server.progresses st1
    ∧ Forall2 completed pre (take (length pre) (Server.progresses st))
    ∧ length (Server.progresses st) = S (length pre)
    ∧ count is_failure (before ++ ev :: after) = 1
    ∧ ∃ st' ret,
        Server.Create pod ((before ++ ev :: after) ++ finish st) = Some st'
        ∧ exiting (Some ret) st
        ∧ Server.returned st' = Some (Some ret).
Proof.
  intros Hst1 Hev Hrun.
  destruct (failure_shape _ _ _ _ _ _ _ Hst1 Hev Hrun)
    as (Hp & Hc & pre & c & rest & ps & f & Hcs & Hpre & Hps & Htr & Hcase).
  pose proof (Forall2_length _ _ _ Hpre) as Hlen.
  pose proof (Create_app _ _ _ _ _ Hst1 Hrun) as Hst.
  exists pre, c, rest. split_and!; [done| |done|done| | | |].
  - destruct Hcase as [(? & ? & _ & ?)|(? & ? & _ & ?)]; [left|right]; done.
  - rewrite Hps, Hlen, take_app_length. done.
  - rewrite Hps, length_app. simpl. lia.
  - pose proof (Create_accounted _ _ _ Hst) as [_ _ Hx _ _].
    rewrite Hx.
    destruct Hcase as [(_ & [->| ->] & _)|(_ & [->| ->] & _)]; done.
  - destruct (Create_can_end _ _ _ Hst) as (st' & Hst' & _ & _ & Hret).
    destruct Hcase as [(_ & Hex & _)|(_ & Hex & _)];
      eexists st', _; split_and!; eauto.
Qed.

Lemma pipeline_stops_at_first_failure_witness :
  let st := state_after sample_pod second_pull_fails in
  ∃ pre c rest,
    [web; db] = pre ++ c :: rest
    ∧ ((Server.EvPullImageReturns (Some timeout)
        = Server.EvPullImageReturns (Some timeout)
        ∧ exiting (Some (pull_failure c timeout)) st
        ∧ Server.calls st
          = completed_calls sample_pod 0 pre
              ++ [CallPullImage "ns1" (Image c) (length pre)])
       ∨ (Server.EvPullImageReturns (Some timeout)
          = Server.EvCreateContainerReturns (Some timeout)
          ∧ exiting (Some (create_failure c timeout)) st
          ∧ Server.calls st = completed_calls sample_pod 0 (pre ++ [c])))
    ∧ Server.calls st = Server.calls (state_after sample_pod (take 5 second_pull_fails))
    ∧ Server.progresses st
      = Server.progresses (state_after sample_pod (take 5 second_pull_fails))
    ∧ Forall2 completed pre (take (length pre) (Server.progresses st))
    ∧ length (Server.progresses st) = S (length pre)
    ∧ count is_failure second_pull_fails = 1
    ∧ ∃ st' ret,
        Server.Create sample_pod (second_pull_fails ++ finish st) = Some st'
        ∧ exiting (Some ret) st
        ∧ Server.returned st' = Some (Some ret).
Proof.
  apply (pipeline_stops_at_first_failure sample_pod
           (take 5 second_pull_fails) (drop 6 second_pull_fails)
           (Server.EvPullImageReturns (Some timeout)) timeout
           (state_after sample_pod (take 5 second_pull_fails))
           (state_after sample_pod second_pull_fails));
    [by vm_compute | by left | by vm_compute].
Defined.

(** The last step of a call that has ended is the receipt of the
    termination signal by the broadcaster. *)
Lemma stopped_ends_with_final (pod : Pod) (trace : list Server.Event)
    (st : Server.State) :
  Server.Create pod trace = Some st →
  Server.broadcaster st = Server.Stopped →
  ∃ before sendErr st1,
    trace = before ++ [Server.EvDoneReceived sendErr]
    ∧ Server.Create pod before = Some st1
    ∧ Server.done st1 = true
    ∧ Server.broadcaster st1 = Server.Reporting
    ∧ st = Server.send sendErr Server.Stopped st1.
Proof.
  destruct trace as [|ev trace _] using rev_ind; [by intros [= <-]|].
  intros (st1 & Hst1 & Hstep)%Create_snoc Hb.
  destruct (Server.broadcaster st1) eqn:Hb1.
  - destruct st1 as [pc ps d b cl se w]. simpl in *.
    step_cases Hstep; simpl in *; subst; try done.
    by eexists _, _, _.
  - by rewrite (stopped_is_terminal pod st1 ev) in Hstep
      by eauto using Create_invariant.
Qed.

(** C1 (counterexample).  The pull of the second of two containers
    fails.  When the call has ended, the tracker holds a record for the
    second container too: it was appended before the pull began. *)
Lemma failed_container_keeps_its_record :
  ∃ st, Server.Create sample_pod second_pull_fails = Some st
    ∧ Server.returned st = Some (Some (pull_failure db timeout))
    ∧ Server.broadcaster st = Server.Stopped
    ∧ progress.ContainerID <$> Server.progresses st = ["web"; "db"]
    ∧ length (Server.progresses st) ≠ 2 - 1.
Proof. eexists. split; [reflexivity|]. by split_and!. Qed.

(** C1 (amended).  When a pull or a creation fails at container [c],
    which stands after the containers [pre] in the pod (container k for
    k = length pre + 1), then once the call has ended the tracker holds
    k records: a complete one for each container of [pre], in order, and
    as the last the record of [c], which is not complete when the pull
    was what failed and complete when the creation was; there is none
    for a later container.  [Create] has returned the error that wraps
    the failure with the image name of [c] (pull) or the container name
    of [c] (creation), and the last message sent shows this tracker. *)
Theorem failed_container_record_remains (pod : Pod)
    (before after : list Server.Event) (ev : Server.Event) (err : error)
    (st1 st : Server.State) :
  Server.Create pod before = Some st1 →
  ev = Server.EvPullImageReturns (Some err)
    ∨ ev = Server.EvCreateContainerReturns (Some err) →
  Server.run pod st1 (ev :: after) = Some st →
  Server.broadcaster st = Server.Stopped →
  ∃ pre c rest ps f,
    Containers (Spec pod) = pre ++ c :: rest
    ∧ Server.progresses st = ps ++ [f]
    ∧ Forall2 completed pre ps
    ∧ tracks c f
    ∧ length (Server.progresses st) = S (length pre)
    ∧ ((ev = Server.EvPullImageReturns (Some err)
        ∧ Server.returned st = Some (Some (pull_failure c err))
        ∧ progress.Complete f = false)
       ∨ (ev = Server.EvCreateContainerReturns (Some err)
          ∧ Server.returned st = Some (Some (create_failure c err))
          ∧ progress.Complete f = true))
    ∧ ∃ earlier, Server.sent st = earlier ++ [Server.snapshot st].
Proof.
  intros Hst1 Hev Hrun Hb.
  destruct (failure_shape _ _ _ _ _ _ _ Hst1 Hev Hrun)
    as (_ & _ & pre & c & rest & ps & f & Hcs & Hpre & Hps & Htr & Hcase).
  pose proof (Create_invariant _ _ _ (Create_app _ _ _ _ _ Hst1 Hrun))
    as [_ Hdone Hstop].
  destruct (Hstop Hb) as [Hd Hsent]. apply Hdone in Hd as [ret Hpc].
  exists pre, c, rest, ps, f. split_and!; [done..| | |done].
  - rewrite Hps, length_app, (Forall2_length _ _ _ Hpre). simpl. lia.
  - unfold Server.returned. rewrite Hpc.
    destruct Hcase as [(? & [?|?] & ? & _)|(? & [?|?] & ? & _)];
      [left|left|right|right]; split_and?; congruence.
Qed.

Lemma failed_container_record_remains_witness :
  let st := state_after sample_pod second_pull_fails in
  ∃ pre c rest ps f,
    [web; db] = pre ++ c :: rest
    ∧ Server.progresses st = ps ++ [f]
    ∧ Forall2 completed pre ps
    ∧ tracks c f
    ∧ length (Server.progresses st) = S (length pre)
    ∧ ((Server.EvPullImageReturns (Some timeout)
        = Server.EvPullImageReturns (Some timeout)
        ∧ Server.returned st = Some (Some (pull_failure c timeout))
        ∧ progress.Complete f = false)
       ∨ (Server.EvPullImageReturns (Some timeout)
          = Server.EvCreateContainerReturns (Some timeout)
          ∧ Server.returned st = Some (Some (create_failure c timeout))
          ∧ progress.Complete f = true))
    ∧ ∃ earlier, Server.sent st = earlier ++ [Server.snapshot st].
Proof.
  apply (failed_container_record_remains sample_pod
           (take 5 second_pull_fails) (drop 6 second_pull_fails)
           (Server.EvPullImageReturns (Some timeout)) timeout
           (state_after sample_pod (take 5 second_pull_fails))
           (state_after sample_pod second_pull_fails));
    [by vm_compute | by left | by vm_compute | by vm_compute].
Defined.

(** ** The call that succeeds *)

Lemma snapshot_shows_complete (cs : list Container)
    (ps : list progress.ImageFetch) :
  Forall2 completed cs ps →
  Forall2 shows_complete cs (mapping.MapImageFetchProgressToAPIModel ps).
Proof.
  intros H. unfold mapping.MapImageFetchProgressToAPIModel.
  apply Forall2_fmap_r. eapply Forall2_impl; [exact H|].
  by intros c f [[? ?] ?].
Qed.

(** C3.  A call in which no pull and no creation has failed can be
    brought to its end without one failing.  When such a call has ended,
    [Create] has returned no error, and the last message handed to the
    stream, sent by the broadcaster on receipt of the termination
    signal, has one entry per container of the pod, in the order of the
    pod, each with the name and image of its container and marked
    complete. *)
Theorem all_succeed_terminal_snapshot (pod : Pod) (trace : list Server.Event)
    (st : Server.State) :
  Server.Create pod trace = Some st →
  count is_failure trace = 0 →
  (∃ st', Server.Create pod (trace ++ finish st) = Some st'
     ∧ count is_failure (trace ++ finish st) = 0
     ∧ Server.broadcaster st' = Server.Stopped)
  ∧ (Server.broadcaster st = Server.Stopped →
     Server.returned st = Some None
     ∧ ∃ before sendErr earlier final,
         trace = before ++ [Server.EvDoneReceived sendErr]
         ∧ count is_close before = 1
         ∧ Server.sent st = earlier ++ [final]
         ∧ length (pods.Images final) = length (Containers (Spec pod))
         ∧ Forall2 shows_complete (Containers (Spec pod)) (pods.Images final)).
Proof.
  intros Hst Hfail. split.
  { destruct (Create_can_end _ _ _ Hst) as (st' & Hst' & Hb' & _).
    exists st'. split_and!; [done| |done].
    by rewrite count_app, Hfail, finish_no_failure. }
  intros Hb.
  pose proof (Create_invariant _ _ _ Hst) as [Hsh Hdone Hstop].
  pose proof (Create_accounted _ _ _ Hst) as [_ _ Hx _ _].
  destruct (Hstop Hb) as [Hd [earlier Hsent]]. apply Hdone in Hd as [ret Hpc].
  rewrite Hfail, Hpc in Hx. destruct ret as [?|]; [done|].
  rewrite Hpc in Hsh. inversion Hsh as [| | | |? ? ? Hex]; subst.
  inversion Hex as [ps' Hall| |]; subst.
  apply snapshot_shows_complete in Hall.
  destruct (stopped_ends_with_final _ _ _ Hst Hb)
    as (before & sendErr & st1 & -> & Hst1 & Hd1 & _ & _).
  pose proof (Create_accounted _ _ _ Hst1) as [Hc1 _ _ _ _]. rewrite Hd1 in Hc1.
  split; [by unfold Server.returned; rewrite Hpc|].
  exists before, sendErr, earlier, (Server.snapshot st).
  split_and!; [done..| |done].
  symmetry. by eapply Forall2_length.
Qed.

Lemma all_succeed_terminal_snapshot_witness :
  let st := state_after sample_pod all_succeed in
  (∃ st', Server.Create sample_pod (all_succeed ++ finish st) = Some st'
     ∧ count is_failure (all_succeed ++ finish st) = 0
     ∧ Server.broadcaster st' = Server.Stopped)
  ∧ Server.returned st = Some None
  ∧ ∃ before sendErr earlier final,
      all_succeed = before ++ [Server.EvDoneReceived sendErr]
      ∧ count is_close before = 1
      ∧ Server.sent st = earlier ++ [final]
      ∧ length (pods.Images final) = 2
      ∧ Forall2 shows_complete [web; db] (pods.Images final).
Proof.
  intros st.
  destruct (all_succeed_terminal_snapshot sample_pod all_succeed st)
    as [Hend Hsnap]; [by vm_compute | by vm_compute |].
  split; [exact Hend|]. apply Hsnap. by vm_compute.
Defined.

(** ** The termination signal and the broadcaster *)

(** The race in a run: the timer case is taken once after the close,
    then the other case; two messages follow the close, the second of
    them the final one. *)
Lemma late_tick_precedes_final :
  ∃ st, Server.Create empty_pod late_tick = Some st
    ∧ Server.returned st = Some None
    ∧ Server.broadcaster st = Server.Stopped
    ∧ length (Server.sent st) = 2
    ∧ count is_final late_tick = 1.
Proof. eexists. split; [by vm_compute|]. by split_and!. Qed.

(** C5 (counterexample).  In this run nothing has been sent when
    [close(done)] has run; the broadcaster then takes the timer case
    once and the other case after it, so two messages follow the firing
    of the signal, not one. *)
Lemma two_messages_after_close :
  ∃ st1 st,
    Server.Create empty_pod (take 2 late_tick) = Some st1
    ∧ Server.done st1 = true
    ∧ Server.sent st1 = []
    ∧ Server.run empty_pod st1 (drop 2 late_tick) = Some st
    ∧ Server.broadcaster st = Server.Stopped
    ∧ length (Server.sent st) = 2.
Proof. eexists _, _. split; [by vm_compute|]. by split_and!. Qed.

(** C5 (amended).  At every point of a call: [close(done)] has run once
    if [Create] has returned, whatever it returned, and not at all
    otherwise; when the return value is set, with or without an error,
    the deferred close is the step the pipeline takes.  Once the signal
    has fired and until the broadcaster receives it, both cases of the
    [select] are open: a tick may still hand a message to the stream.
    The broadcaster receives the signal only after it fired; on receipt
    it hands one more message to the stream, the snapshot of the tracker
    at that moment, and stops; that is the last step of the call, and no
    step can follow it.  Every call can be brought to that end, and has
    then seen one close and one final message. *)
Theorem termination_fires_once_then_final_snapshot (pod : Pod)
    (trace : list Server.Event) (st : Server.State) :
  Server.Create pod trace = Some st →
  count is_close trace = (if Server.done st then 1 else 0)
  ∧ (∀ ret, Server.returned st = Some ret → count is_close trace = 1)
  ∧ (∀ ret, Server.pc st = Server.Deferred ret →
       Server.step pod st Server.EvCloseDone = Some (Server.close_done st ret))
  ∧ count is_final trace
    = match Server.broadcaster st with Server.Stopped => 1 | _ => 0 end
  ∧ (∀ before sendErr after,
       trace = before ++ Server.EvDoneReceived sendErr :: after →
       after = []
       ∧ count is_close before = 1
       ∧ count is_final before = 0
       ∧ (∃ st1, Server.Create pod before = Some st1
            ∧ Server.sent st = Server.sent st1 ++ [Server.snapshot st1])
       ∧ Server.broadcaster st = Server.Stopped
       ∧ ∀ ev, Server.step pod st ev = None)
  ∧ (Server.done st = true → Server.broadcaster st = Server.Reporting →
     ∀ sendErr,
       Server.step pod st (Server.EvDoneReceived sendErr)
       = Some (Server.send sendErr Server.Stopped st)
       ∧ ∃ st' m,
           Server.step pod st (Server.EvTimer sendErr) = Some st'
           ∧ Server.sent st' = Server.sent st ++ [m]
           ∧ Server.done st' = true
           ∧ Server.broadcaster st' = Server.Reporting)
  ∧ ∃ st', Server.Create pod (trace ++ finish st) = Some st'
      ∧ count is_close (trace ++ finish st) = 1
      ∧ count is_final (trace ++ finish st) = 1.
Proof.
  intros Hst.
  pose proof (Create_invariant _ _ _ Hst) as Hinv.
  pose proof (Create_accounted _ _ _ Hst) as [Hc Hf _ _ _].
  split_and!; [done| | |done| | |].
  - intros ret Hret. unfold Server.returned in Hret.
    destruct Hinv as [_ Hdone _].
    destruct (Server.pc st) eqn:Hpc; try done.
    rewrite Hc. destruct Hdone as [_ ->]; by eauto.
  - intros ret Hpc. unfold Server.step. by rewrite Hpc.
  - intros before sendErr after ->.
    apply run_app_Some in Hst as (st1 & Hst1 & Hst).
    apply run_cons_Some in Hst as (st2 & Hstep & Hst).
    pose proof (Create_invariant _ _ _ Hst1) as Hinv1.
    pose proof (Create_accounted _ _ _ Hst1) as [Hc1 Hf1 _ _ _].
    assert (Server.broadcaster st1 = Server.Reporting
            ∧ Server.done st1 = true
            ∧ st2 = Server.send sendErr Server.Stopped st1) as (Hb1 & Hd1 & ->).
    { unfold Server.step in Hstep.
      destruct (Server.pc st1), (Server.broadcaster st1), (Server.done st1);
        by simplify_eq. }
    assert (invariant pod (Server.send sendErr Server.Stopped st1)) as Hinv2
      by (eapply step_invariant; eauto).
    assert (after = []) as ->.
    { destruct after as [|ev after]; [done|].
      apply run_cons_Some in Hst as (? & Hn & _).
      by rewrite (stopped_is_terminal pod _ ev Hinv2) in Hn. }
    injection Hst as <-. rewrite Hb1 in Hf1. rewrite Hd1 in Hc1.
    split_and!; [done..| |done|].
    + by exists st1.
    + intros ev. by apply stopped_is_terminal.
  - intros Hd Hb sendErr.
    split; [by apply final_after_close|].
    eexists _, _. split; [by apply tick_after_close|]. done.
  - destruct (Create_can_end _ _ _ Hst) as (st' & Hst' & Hb' & _).
    pose proof (Create_invariant _ _ _ Hst') as [_ _ Hstop'].
    pose proof (Create_accounted _ _ _ Hst') as [Hc' Hf' _ _ _].
    destruct (Hstop' Hb') as [Hd' _]. rewrite Hd' in Hc'. rewrite Hb' in Hf'.
    by exists st'.
Qed.

Lemma termination_fires_once_then_final_snapshot_witness :
  let st := state_after sample_pod second_pull_fails in
  count is_close second_pull_fails = 1
  ∧ Server.returned st = Some (Some (pull_failure db timeout))
  ∧ count is_final second_pull_fails = 1
  ∧ ∀ ev, Server.step sample_pod st ev = None.
Proof.
  intros st.
  destruct (termination_fires_once_then_final_snapshot sample_pod
              second_pull_fails st) as (Hc & _ & _ & Hf & Hlast & _ & _);
    [by vm_compute|].
  destruct (Hlast (take 7 second_pull_fails) None []) as (_ & _ & _ & _ & _ & Hend);
    [by vm_compute|].
  split_and!; [exact Hc | by vm_compute | exact Hf | exact Hend].
Defined.

(** ** Failed sends *)

Lemma step_heal (pod : Pod) (st st' : Server.State) (ev : Server.Event) :
  Server.step pod st ev = Some st' →
  Server.step pod (forget_warnings st) (heal ev) = Some (forget_warnings st').
Proof.
  intros Hstep. destruct st as [pc ps d b cl se w].
  step_cases Hstep; simpl in *; subst; try done.
  all: unfold Server.step; simpl;
    repeat match goal with H : _ = _ |- _ => rewrite H end; done.
Qed.

Lemma run_heal (pod : Pod) (st st' : Server.State) (trace : list Server.Event) :
  Server.run pod st trace = Some st' →
  Server.run pod (forget_warnings st) (heal <$> trace) = Some (forget_warnings st').
Proof.
  revert st. induction trace as [|ev trace IH]; intros st.
  - by intros [= <-].
  - intros (mid & Hstep & Hrun)%run_cons_Some. rewrite fmap_cons.
    apply run_cons_Some. eauto using step_heal.
Qed.

(** C8.  Take any point of a call and let every send of the trace
    succeed instead: the call is at the same point, with the same
    return value, tracker, client calls, broadcaster state and messages
    handed to the stream; the failed sends have left nothing but one
    warning each.  Every step of the broadcaster, whether its send
    failed or not, handed one message to the stream.  And where the
    broadcaster is running, a tick whose send fails hands its message
    to the stream, logs the warning and leaves the broadcaster running
    and the pipeline where it was; the next tick is open and hands one
    more message to the stream, whatever came of the send before, and so
    is the receipt of the termination signal once it has fired. *)
Theorem failed_send_is_absorbed (pod : Pod) (trace : list Server.Event)
    (st : Server.State) :
  Server.Create pod trace = Some st →
  Server.Create pod (heal <$> trace) = Some (forget_warnings st)
  ∧ Server.warnings st = Server.Warnf <$> omap send_error trace
  ∧ length (Server.sent st) = count is_broadcast trace
  ∧ ∀ err, Server.broadcaster st = Server.Reporting →
      ∃ st' m,
        Server.step pod st (Server.EvTimer (Some err)) = Some st'
        ∧ Server.sent st' = Server.sent st ++ [m]
        ∧ Server.pc st' = Server.pc st
        ∧ Server.progresses st' = Server.progresses st
        ∧ Server.calls st' = Server.calls st
        ∧ Server.done st' = Server.done st
        ∧ Server.broadcaster st' = Server.Reporting
        ∧ Server.warnings st' = Server.warnings st ++ [Server.Warnf err]
        ∧ (∀ sendErr, ∃ st'' m',
             Server.step pod st' (Server.EvTimer sendErr) = Some st''
             ∧ Server.sent st'' = Server.sent st' ++ [m']
             ∧ Server.broadcaster st'' = Server.Reporting)
        ∧ (Server.done st' = true →
           ∀ sendErr, ∃ st'' m',
             Server.step pod st' (Server.EvDoneReceived sendErr) = Some st''
             ∧ Server.sent st'' = Server.sent st' ++ [m']
             ∧ Server.broadcaster st'' = Server.Stopped).
Proof.
  intros Hst. pose proof (Create_accounted _ _ _ Hst) as [_ _ _ Hsent Hwarn].
  split_and!; [by apply run_heal in Hst|done|done|].
  intros err Hb.
  exists (Server.send (Some err) Server.Reporting st), (Server.snapshot st).
  split; [by apply tick_after_close|]. split_and!; try done.
  - intros sendErr. eexists _, _. split; [by apply tick_after_close|]. done.
  - intros Hd sendErr. eexists _, _. split; [by apply final_after_close|]. done.
Qed.

Lemma failed_send_is_absorbed_witness :
  let st := state_after sample_pod (take 2 all_succeed) in
  let err := errorString "transport is closing" in
  Server.warnings st = [Server.Warnf err]
  ∧ length (Server.sent st) = 1
  ∧ ∃ st' m,
      Server.step sample_pod st (Server.EvTimer (Some err)) = Some st'
      ∧ Server.sent st' = Server.sent st ++ [m]
      ∧ Server.pc st' = Server.pc st
      ∧ Server.broadcaster st' = Server.Reporting
      ∧ Server.warnings st' = [Server.Warnf err; Server.Warnf err]
      ∧ ∃ st'' m',
          Server.step sample_pod st' (Server.EvTimer None) = Some st''
          ∧ Server.sent st'' = Server.sent st' ++ [m'].
Proof.
  intros st err.
  destruct (failed_send_is_absorbed sample_pod (take 2 all_succeed) st)
    as (_ & Hw & Hlen & Htick); [by vm_compute|].
  destruct (Htick err) as (st' & m & Hstep & Hsent & Hpc & _ & _ & _ & Hb & Hw' & Hnext & _);
    [by vm_compute|].
  destruct (Hnext None) as (st'' & m' & Hstep' & Hsent' & _).
  split; [exact Hw|]. split; [exact Hlen|].
  exists st', m. split_and!; [exact Hstep|exact Hsent|exact Hpc|exact Hb| |].
  - rewrite Hw'. by rewrite Hw.
  - by exists st'', m'.
Defined.

(** * Further properties *)

(** ** [Server.Start] *)

Ltac run_pods :=
  unfold PodsServer.Start, PodsServer.Delete, PodsServer.List,
    mbind, PodsExec_bind, mret, PodsExec_ret, ask; simpl.

Section StartProperties.

Context {CS ApiPod : Type} `{client : PodsClient CS} `{PodMapping ApiPod}.

Lemma Start_range_all (namespace : string) (containers : list Container)
    (w : World CS) (s' : CS) :
  started namespace containers (provider w) = Some s' →
  PodsServer.Start_range namespace containers w
  = (None, {| provider := s';
              history := history w ++ (start_call namespace <$> containers) |}).
Proof.
  revert w. induction containers as [|c cs IH]; intros [s h]; simpl.
  - intros [= <-]. by rewrite app_nil_r.
  - run_pods. destruct (client_StartContainer _ _ _ s) as [[e|] s1]; [done|].
    intros Hok. rewrite (IH {| provider := s1; history := h ++ _ |} Hok). simpl.
    by rewrite <- app_assoc.
Qed.

Lemma Start_range_first_failure (namespace : string)
    (pre rest : list Container) (c : Container) (w : World CS)
    (s2 s3 : CS) (e : error) :
  started namespace pre (provider w) = Some s2 →
  client_StartContainer namespace (Name c) (Tty c) s2 = (Some e, s3) →
  PodsServer.Start_range namespace (pre ++ c :: rest) w
  = (Some (withMessage e ("Failed to start container [" +:+ Name c +:+ "]")),
     {| provider := s3;
        history := history w ++ (start_call namespace <$> pre ++ [c]) |}).
Proof.
  revert w. induction pre as [|p pre IH]; intros [s h]; simpl.
  - intros [= <-] Hc. run_pods. by rewrite Hc.
  - run_pods. destruct (client_StartContainer _ _ _ s) as [[e'|] s1]; [done|].
    intros Hok Hc. rewrite (IH {| provider := s1; history := h ++ _ |} Hok Hc).
    simpl. by rewrite <- app_assoc.
Qed.

(** Whatever the client does, the loop starts a prefix of the
    containers, in order, and fails exactly when the last call of that
    prefix did. *)
Lemma Start_range_shape (namespace : string) (containers : list Container)
    (w : World CS) :
  ∃ k, k ≤ length containers
    ∧ history (PodsServer.Start_range namespace containers w).2
      = history w ++ (start_call namespace <$> take k containers)
    ∧ match (PodsServer.Start_range namespace containers w).1 with
      | None => k = length containers
      | Some err =>
          ∃ c cause, containers !! (k - 1) = Some c ∧ 0 < k
            ∧ err = withMessage cause
                      ("Failed to start container [" +:+ Name c +:+ "]")
      end.
Proof.
  revert w. induction containers as [|c cs IH]; intros [s h]; simpl.
  - exists 0. by rewrite app_nil_r.
  - run_pods. destruct (client_StartContainer _ _ _ s) as [[e|] s1]; simpl.
    + exists 1. split_and!; [lia|by destruct cs|]. exists c, e. split_and!; [done|lia|done].
    + destruct (IH {| provider := s1; history := h ++ [start_call namespace c] |})
        as (k & Hk & Hh & Hr).
      exists (Datatypes.S k). split_and!; [lia| |].
      * unfold start_call in *. rewrite Hh. simpl. by rewrite <- app_assoc.
      * unfold start_call in *.
        destruct (PodsServer.Start_range namespace cs _).1; [|lia].
        destruct Hr as (c' & cause & Hc' & Hpos & ->). exists c', cause.
        split_and!; [|lia|done].
        destruct k; [lia|]. simpl in *. by rewrite Nat.sub_0_r in Hc'.
Qed.

End StartProperties.

(** X1.  When the client cannot list the containers of the pod, [Start]
    returns no response and the client's error wrapped with the names of
    the pod and the namespace; that one call is all it makes, whatever
    list came with the error. *)
Theorem Start_lookup_failure {CS ApiPod : Type} `{client : PodsClient CS}
    `{pm : PodMapping ApiPod} (req : podsapi.StartPodRequest) (w : World CS)
    (containers : list Container) (e : error) (s1 : CS) :
  client_GetContainers (podsapi.start_Namespace req) (podsapi.start_Name req)
    (provider w) = ((containers, Some e), s1) →
  PodsServer.Start req w
  = ((None,
      Some (withMessage e
              ("Failed to find containers to start for pod ["
                 +:+ podsapi.start_Name req +:+ "] in namespace ["
                 +:+ podsapi.start_Namespace req +:+ "]"))),
     {| provider := s1;
        history := history w
                   ++ [CallGetContainers (podsapi.start_Namespace req)
                         (podsapi.start_Name req)] |}).
Proof. intros Hget. run_pods. by rewrite Hget. Qed.

Lemma Start_lookup_failure_witness :
  PodsServer.Start (client := scripted_client) (H := sample_mapping)
    {| podsapi.start_Namespace := "ns1"; podsapi.start_Name := "shop" |}
    (fresh [Some timeout])
  = ((None,
      Some (withMessage timeout
              ("Failed to find containers to start for pod ["
                 +:+ "shop" +:+ "] in namespace [" +:+ "ns1" +:+ "]"))),
     {| provider := [];
        history := [] ++ [CallGetContainers "ns1" "shop"] |}).
Proof.
  apply (Start_lookup_failure (client := scripted_client) (pm := sample_mapping)
           {| podsapi.start_Namespace := "ns1"; podsapi.start_Name := "shop" |}
           (fresh [Some timeout]) [web; db] timeout []).
  reflexivity.
Defined.

(** X2.  When the containers before [c] start and the start of [c]
    fails, [Start] returns no response and that error wrapped with the
    name of [c].  The client was asked for the list, then to start the
    containers up to [c], in order, each with its own tty flag; the
    containers after [c] are not touched, and the ones before it stay
    started: the client is left in the state the failed call put it in. *)
Theorem Start_stops_at_first_failure {CS ApiPod : Type} `{client : PodsClient CS}
    `{pm : PodMapping ApiPod} (req : podsapi.StartPodRequest) (w : World CS)
    (pre rest : list Container) (c : Container) (e : error) (s1 s2 s3 : CS) :
  client_GetContainers (podsapi.start_Namespace req) (podsapi.start_Name req)
    (provider w) = ((pre ++ c :: rest, None), s1) →
  started (podsapi.start_Namespace req) pre s1 = Some s2 →
  client_StartContainer (podsapi.start_Namespace req) (Name c) (Tty c) s2
    = (Some e, s3) →
  PodsServer.Start req w
  = ((None,
      Some (withMessage e ("Failed to start container [" +:+ Name c +:+ "]"))),
     {| provider := s3;
        history := history w
                   ++ CallGetContainers (podsapi.start_Namespace req)
                        (podsapi.start_Name req)
                      :: (start_call (podsapi.start_Namespace req) <$> pre ++ [c]) |}).
Proof.
  intros Hget Hpre Hc. run_pods. rewrite Hget.
  rewrite (Start_range_first_failure _ pre rest c
             {| provider := s1; history := history w ++ [_] |} s2 s3 e Hpre Hc).
  simpl. by rewrite <- app_assoc.
Qed.

Lemma Start_stops_at_first_failure_witness :
  PodsServer.Start (client := scripted_client) (H := sample_mapping)
    {| podsapi.start_Namespace := "ns1"; podsapi.start_Name := "shop" |}
    (fresh [None; None; Some timeout; None])
  = ((None,
      Some (withMessage timeout ("Failed to start container [" +:+ Name db +:+ "]"))),
     {| provider := [None];
        history := [] ++ CallGetContainers "ns1" "shop"
                           :: (start_call "ns1" <$> [web] ++ [db]) |}).
Proof.
  apply (Start_stops_at_first_failure (client := scripted_client)
           (pm := sample_mapping)
           {| podsapi.start_Namespace := "ns1"; podsapi.start_Name := "shop" |}
           (fresh [None; None; Some timeout; None]) [web] [] db timeout
           [None; Some timeout; None] [Some timeout; None] [None]);
    reflexivity.
Defined.

(** X3.  When every container the client lists starts, [Start] returns
    no error and the wire model of the pod built from the list as it was
    fetched; the client was asked for the list and then to start every
    container once, in the order of the list. *)
Theorem Start_starts_all {CS ApiPod : Type} `{client : PodsClient CS}
    `{pm : PodMapping ApiPod} (req : podsapi.StartPodRequest) (w : World CS)
    (containers : list Container) (s1 s2 : CS) :
  client_GetContainers (podsapi.start_Namespace req) (podsapi.start_Name req)
    (provider w) = ((containers, None), s1) →
  started (podsapi.start_Namespace req) containers s1 = Some s2 →
  PodsServer.Start req w
  = ((Some (CreatePodAPIModel (podsapi.start_Namespace req)
              (podsapi.start_Name req) containers), None),
     {| provider := s2;
        history := history w
                   ++ CallGetContainers (podsapi.start_Namespace req)
                        (podsapi.start_Name req)
                      :: (start_call (podsapi.start_Namespace req) <$> containers) |}).
Proof.
  intros Hget Hall. run_pods. rewrite Hget.
  rewrite (Start_range_all _ containers
             {| provider := s1; history := history w ++ [_] |} s2 Hall).
  simpl. by rewrite <- app_assoc.
Qed.

Lemma Start_starts_all_witness :
  PodsServer.Start (client := scripted_client) (H := sample_mapping)
    {| podsapi.start_Namespace := "ns1"; podsapi.start_Name := "shop" |}
    (fresh [])
  = ((Some (CreatePodAPIModel (PodMapping := sample_mapping) "ns1" "shop" [web; db]),
      None),
     {| provider := [];
        history := [] ++ CallGetContainers "ns1" "shop"
                           :: (start_call "ns1" <$> [web; db]) |}).
Proof.
  apply (Start_starts_all (client := scripted_client) (pm := sample_mapping)
           {| podsapi.start_Namespace := "ns1"; podsapi.start_Name := "shop" |}
           (fresh []) [web; db] [] []);
    reflexivity.
Defined.

(** X4.  Whatever the client answers, [Start] asks it for the list once,
    first, and then starts a prefix of the list, in order: it never
    stops a container and never starts one twice or out of turn.  It
    returns a response or an error, never both and never neither, and a
    response only after it started the whole list. *)
Theorem Start_history_shape {CS ApiPod : Type} `{client : PodsClient CS}
    `{pm : PodMapping ApiPod} (req : podsapi.StartPodRequest) (w : World CS) :
  let namespace := podsapi.start_Namespace req in
  let name := podsapi.start_Name req in
  let containers := (client_GetContainers namespace name (provider w)).1.1 in
  ∃ k, k ≤ length containers
    ∧ history (PodsServer.Start req w).2
      = history w ++ CallGetContainers namespace name
                       :: (start_call namespace <$> take k containers)
    ∧ match (PodsServer.Start req w).1 with
      | (Some pod, None) =>
          k = length containers
          ∧ pod = CreatePodAPIModel namespace name containers
      | (None, Some _) => True
      | _ => False
      end.
Proof.
  cbv zeta. run_pods.
  destruct (client_GetContainers _ _ _) as [[cs [e|]] s1]; simpl.
  - exists 0. split_and!; [lia| by rewrite take_0 | done].
  - destruct (Start_range_shape (podsapi.start_Namespace req) cs
                {| provider := s1;
                   history := history w ++ [CallGetContainers
                                (podsapi.start_Namespace req)
                                (podsapi.start_Name req)] |})
      as (k & Hk & Hh & Hr).
    exists k. split; [done|].
    destruct (PodsServer.Start_range _ cs _) as [[err|] w'] eqn:Hrange;
      simpl in *; (split; [by rewrite Hh, <- app_assoc|done]).
Qed.

(** ** [Server.Delete] *)

Section DeleteProperties.

Context {CS ApiPod : Type} `{client : PodsClient CS} `{PodMapping ApiPod}.

Lemma Delete_range_all (namespace : string) (containers : list Container)
    (w : World CS) (s' : CS) :
  stopped namespace containers (provider w) = Some s' →
  PodsServer.Delete_range namespace containers w
  = (None, {| provider := s';
              history := history w ++ (stop_call namespace <$> containers) |}).
Proof.
  revert w. induction containers as [|c cs IH]; intros [s h]; simpl.
  - intros [= <-]. by rewrite app_nil_r.
  - run_pods. destruct (client_StopContainer _ _ s) as [[e|] s1]; [done|].
    intros Hok. rewrite (IH {| provider := s1; history := h ++ _ |} Hok). simpl.
    by rewrite <- app_assoc.
Qed.

Lemma Delete_range_first_failure (namespace : string)
    (pre rest : list Container) (c : Container) (w : World CS)
    (s2 s3 : CS) (e : error) :
  stopped namespace pre (provider w) = Some s2 →
  client_StopContainer namespace (Name c) s2 = (Some e, s3) →
  PodsServer.Delete_range namespace (pre ++ c :: rest) w
  = (Some (withMessage e ("Error while stopping container [" +:+ Name c +:+ "]")),
     {| provider := s3;
        history := history w ++ (stop_call namespace <$> pre ++ [c]) |}).
Proof.
  revert w. induction pre as [|p pre IH]; intros [s h]; simpl.
  - intros [= <-] Hc. run_pods. by rewrite Hc.
  - run_pods. destruct (client_StopContainer _ _ s) as [[e'|] s1]; [done|].
    intros Hok Hc. rewrite (IH {| provider := s1; history := h ++ _ |} Hok Hc).
    simpl. by rewrite <- app_assoc.
Qed.

Lemma Delete_range_shape (namespace : string) (containers : list Container)
    (w : World CS) :
  ∃ k, k ≤ length containers
    ∧ history (PodsServer.Delete_range namespace containers w).2
      = history w ++ (stop_call namespace <$> take k containers)
    ∧ match (PodsServer.Delete_range namespace containers w).1 with
      | None => k = length containers
      | Some err =>
          ∃ c cause, containers !! (k - 1) = Some c ∧ 0 < k
            ∧ err = withMessage cause
                      ("Error while stopping container [" +:+ Name c +:+ "]")
      end.
Proof.
  revert w. induction containers as [|c cs IH]; intros [s h]; simpl.
  - exists 0. by rewrite app_nil_r.
  - run_pods. destruct (client_StopContainer _ _ s) as [[e|] s1]; simpl.
    + exists 1. split_and!; [lia|by destruct cs|]. exists c, e. split_and!; [done|lia|done].
    + destruct (IH {| provider := s1; history := h ++ [stop_call namespace c] |})
        as (k & Hk & Hh & Hr).
      exists (Datatypes.S k). split_and!; [lia| |].
      * unfold stop_call in *. rewrite Hh. simpl. by rewrite <- app_assoc.
      * unfold stop_call in *.
        destruct (PodsServer.Delete_range namespace cs _).1; [|lia].
        destruct Hr as (c' & cause & Hc' & Hpos & ->). exists c', cause.
        split_and!; [|lia|done].
        destruct k; [lia|]. simpl in *. by rewrite Nat.sub_0_r in Hc'.
Qed.

End DeleteProperties.

(** X5.  When the client cannot list the containers of the pod,
    [Delete] returns no response and the client's error wrapped with the
    name of the pod; nothing is stopped. *)
Theorem Delete_lookup_failure {CS ApiPod : Type} `{client : PodsClient CS}
    `{pm : PodMapping ApiPod} (req : podsapi.DeletePodRequest) (w : World CS)
    (containers : list Container) (e : error) (s1 : CS) :
  client_GetContainers (podsapi.delete_Namespace req) (podsapi.delete_Name req)
    (provider w) = ((containers, Some e), s1) →
  PodsServer.Delete req w
  = ((None,
      Some (withMessage e
              ("Cannot fetch pod containers, cannot delete pod ["
                 +:+ podsapi.delete_Name req +:+ "]"))),
     {| provider := s1;
        history := history w
                   ++ [CallGetContainers (podsapi.delete_Namespace req)
                         (podsapi.delete_Name req)] |}).
Proof. intros Hget. run_pods. by rewrite Hget. Qed.

Lemma Delete_lookup_failure_witness :
  PodsServer.Delete (client := scripted_client) (H := sample_mapping)
    {| podsapi.delete_Namespace := "ns1"; podsapi.delete_Name := "shop" |}
    (fresh [Some timeout])
  = ((None,
      Some (withMessage timeout
              ("Cannot fetch pod containers, cannot delete pod ["
                 +:+ "shop" +:+ "]"))),
     {| provider := [];
        history := [] ++ [CallGetContainers "ns1" "shop"] |}).
Proof.
  apply (Delete_lookup_failure (client := scripted_client) (pm := sample_mapping)
           {| podsapi.delete_Namespace := "ns1"; podsapi.delete_Name := "shop" |}
           (fresh [Some timeout]) [web; db] timeout []).
  reflexivity.
Defined.

(** X6.  When the containers before [c] stop and the stop of [c] fails,
    [Delete] returns no response and that error wrapped with the name of
    [c].  The containers after [c] are not touched and keep running; the
    ones before it stay stopped. *)
Theorem Delete_stops_at_first_failure {CS ApiPod : Type} `{client : PodsClient CS}
    `{pm : PodMapping ApiPod} (req : podsapi.DeletePodRequest) (w : World CS)
    (pre rest : list Container) (c : Container) (e : error) (s1 s2 s3 : CS) :
  client_GetContainers (podsapi.delete_Namespace req) (podsapi.delete_Name req)
    (provider w) = ((pre ++ c :: rest, None), s1) →
  stopped (podsapi.delete_Namespace req) pre s1 = Some s2 →
  client_StopContainer (podsapi.delete_Namespace req) (Name c) s2 = (Some e, s3) →
  PodsServer.Delete req w
  = ((None,
      Some (withMessage e ("Error while stopping container [" +:+ Name c +:+ "]"))),
     {| provider := s3;
        history := history w
                   ++ CallGetContainers (podsapi.delete_Namespace req)
                        (podsapi.delete_Name req)
                      :: (stop_call (podsapi.delete_Namespace req) <$> pre ++ [c]) |}).
Proof.
  intros Hget Hpre Hc. run_pods. rewrite Hget.
  rewrite (Delete_range_first_failure _ pre rest c
             {| provider := s1; history := history w ++ [_] |} s2 s3 e Hpre Hc).
  simpl. by rewrite <- app_assoc.
Qed.

Lemma Delete_stops_at_first_failure_witness :
  PodsServer.Delete (client := scripted_client) (H := sample_mapping)
    {| podsapi.delete_Namespace := "ns1"; podsapi.delete_Name := "shop" |}
    (fresh [None; Some timeout])
  = ((None,
      Some (withMessage timeout ("Error while stopping container [" +:+ Name web +:+ "]"))),
     {| provider := [];
        history := [] ++ CallGetContainers "ns1" "shop"
                           :: (stop_call "ns1" <$> [] ++ [web]) |}).
Proof.
  apply (Delete_stops_at_first_failure (client := scripted_client)
           (pm := sample_mapping)
           {| podsapi.delete_Namespace := "ns1"; podsapi.delete_Name := "shop" |}
           (fresh [None; Some timeout]) [] [db] web timeout
           [Some timeout] [Some timeout] []);
    reflexivity.
Defined.

(** X7.  When every container the client lists stops, [Delete] returns
    no error and the wire model of the pod built from the list as it was
    fetched before anything was stopped; every container was stopped
    once, in the order of the list. *)
Theorem Delete_stops_all {CS ApiPod : Type} `{client : PodsClient CS}
    `{pm : PodMapping ApiPod} (req : podsapi.DeletePodRequest) (w : World CS)
    (containers : list Container) (s1 s2 : CS) :
  client_GetContainers (podsapi.delete_Namespace req) (podsapi.delete_Name req)
    (provider w) = ((containers, None), s1) →
  stopped (podsapi.delete_Namespace req) containers s1 = Some s2 →
  PodsServer.Delete req w
  = ((Some (CreatePodAPIModel (podsapi.delete_Namespace req)
              (podsapi.delete_Name req) containers), None),
     {| provider := s2;
        history := history w
                   ++ CallGetContainers (podsapi.delete_Namespace req)
                        (podsapi.delete_Name req)
                      :: (stop_call (podsapi.delete_Namespace req) <$> containers) |}).
Proof.
  intros Hget Hall. run_pods. rewrite Hget.
  rewrite (Delete_range_all _ containers
             {| provider := s1; history := history w ++ [_] |} s2 Hall).
  simpl. by rewrite <- app_assoc.
Qed.

Lemma Delete_stops_all_witness :
  PodsServer.Delete (client := scripted_client) (H := sample_mapping)
    {| podsapi.delete_Namespace := "ns1"; podsapi.delete_Name := "shop" |}
    (fresh [])
  = ((Some (CreatePodAPIModel (PodMapping := sample_mapping) "ns1" "shop" [web; db]),
      None),
     {| provider := [];
        history := [] ++ CallGetContainers "ns1" "shop"
                           :: (stop_call "ns1" <$> [web; db]) |}).
Proof.
  apply (Delete_stops_all (client := scripted_client) (pm := sample_mapping)
           {| podsapi.delete_Namespace := "ns1"; podsapi.delete_Name := "shop" |}
           (fresh []) [web; db] [] []);
    reflexivity.
Defined.

(** X8.  Whatever the client answers, [Delete] asks it for the list
    once, first, and then stops a prefix of the list, in order: it never
    starts a container and stops none twice.  It returns a response or an
    error, never both and never neither, and a response only after it
    stopped the whole list. *)
Theorem Delete_history_shape {CS ApiPod : Type} `{client : PodsClient CS}
    `{pm : PodMapping ApiPod} (req : podsapi.DeletePodRequest) (w : World CS) :
  let namespace := podsapi.delete_Namespace req in
  let name := podsapi.delete_Name req in
  let containers := (client_GetContainers namespace name (provider w)).1.1 in
  ∃ k, k ≤ length containers
    ∧ history (PodsServer.Delete req w).2
      = history w ++ CallGetContainers namespace name
                       :: (stop_call namespace <$> take k containers)
    ∧ match (PodsServer.Delete req w).1 with
      | (Some pod, None) =>
          k = length containers
          ∧ pod = CreatePodAPIModel namespace name containers
      | (None, Some _) => True
      | _ => False
      end.
Proof.
  cbv zeta. run_pods.
  destruct (client_GetContainers _ _ _) as [[cs [e|]] s1]; simpl.
  - exists 0. split_and!; [lia| by rewrite take_0 | done].
  - destruct (Delete_range_shape (podsapi.delete_Namespace req) cs
                {| provider := s1;
                   history := history w ++ [CallGetContainers
                                (podsapi.delete_Namespace req)
                                (podsapi.delete_Name req)] |})
      as (k & Hk & Hh & Hr).
    exists k. split; [done|].
    destruct (PodsServer.Delete_range _ cs _) as [[err|] w'] eqn:Hrange;
      simpl in *; (split; [by rewrite Hh, <- app_assoc|done]).
Qed.

(** ** [Server.List] *)

(** X9.  [List] asks the client once for the pods of the namespace.  An
    error of the client comes back as it is, not wrapped, with no
    response; otherwise the response is the wire model of the pods the
    client returned. *)
Theorem List_passes_answer_on {CS ApiPod : Type} `{client : PodsClient CS}
    `{pm : PodMapping ApiPod} (req : podsapi.ListPodsRequest) (w : World CS) :
  let answer := client_GetPods (podsapi.list_Namespace req) (provider w) in
  PodsServer.List req w
  = (match answer.1.2 with
     | Some e => (None, Some e)
     | None => (Some (MapPodsToAPIModel answer.1.1), None)
     end,
     {| provider := answer.2;
        history := history w ++ [CallGetPods (podsapi.list_Namespace req)] |}).
Proof.
  cbv zeta. run_pods. by destruct (client_GetPods _ _) as [[p [e|]] s1].
Qed.

(** ** [Server.Attach] and [getMetadataValue], further *)

(** X10.  [getMetadataValue] yields the first value of the key.  It
    yields the empty string both for a key that is absent and for a key
    whose first value is empty, so the two cannot be told apart by its
    caller; and it panics for exactly the keys bound to no value. *)
Theorem getMetadataValue_empty_or_absent (md : MD) (key : string) :
  (getMetadataValue md key = Ret ""
   ↔ md !! key = None ∨ ∃ vs, md !! key = Some ("" :: vs))
  ∧ (getMetadataValue md key = Panic index_panic ↔ md !! key = Some [])
  ∧ (∀ v vs, md !! key = Some (v :: vs) → getMetadataValue md key = Ret v).
Proof.
  unfold getMetadataValue. destruct (md !! key) as [[|v vs]|]; simpl.
  - split_and!; [|done|done]. split; [done|]. by intros [?|[? ?]].
  - split_and!.
    + split; [intros [= ->]; right; by eexists|]. intros [?|[? ?]]; by simplify_eq.
    + done.
    + by intros ? ? [= -> ->].
  - split_and!; [|done|done]. split; [by left|done].
Qed.

Lemma getMetadataValue_empty_or_absent_witness :
  let md : MD := {[ "namespace" := [""; "ns1"] ]} in
  getMetadataValue md "namespace" = Ret ""
  ∧ getMetadataValue md "container" = Ret "".
Proof.
  intros md.
  destruct (getMetadataValue_empty_or_absent md "namespace") as ((_ & Hns) & _ & _).
  destruct (getMetadataValue_empty_or_absent md "container") as ((_ & Hid) & _ & _).
  split.
  - apply Hns. right. by exists ["ns1"].
  - apply Hid. left. reflexivity.
Defined.

(** X11.  The client is reached on one path only: a call on the client
    in the log of [Attach] means that the metadata is there, that the
    first values of [namespace] and [container] are both non-empty, and
    that this call, with these two values and the three channels over
    the stream, is the only one made; [Attach] then returned what the
    client answered. *)
Theorem Attach_call_implies_valid `{client : RuntimeClient}
    (server : AttachServer) (call : Call) :
  call ∈ (exec (Server.Attach server)).2 →
  ∃ md ns id nss ids,
    incoming server = Some md
    ∧ md !! "namespace" = Some (ns :: nss) ∧ ns ≠ ""
    ∧ md !! "container" = Some (id :: ids) ∧ id ≠ ""
    ∧ call = CallAttach ns id (attach_io server)
    ∧ exec (Server.Attach server)
      = (Ret (client_Attach ns id (attach_io server)), [call]).
Proof.
  intros Hcall.
  destruct (Attach_reaches_client server)
    as [(md & ns & id & nss & ids & ? & ? & ? & ? & ? & Hex)|[[err Hex]|Hex]];
    rewrite Hex in Hcall; simpl in Hcall.
  - apply list_elem_of_singleton in Hcall as ->.
    by exists md, ns, id, nss, ids.
  - by apply elem_of_nil in Hcall.
  - by apply elem_of_nil in Hcall.
Qed.

Lemma Attach_call_implies_valid_witness :
  let client := accepting_client in
  let md : MD := {[ "namespace" := ["ns1"]; "container" := ["c1"; "c2"] ]} in
  let server := attach_server (Some md) in
  ∃ md' ns id nss ids,
    incoming server = Some md'
    ∧ md' !! "namespace" = Some (ns :: nss) ∧ ns ≠ ""
    ∧ md' !! "container" = Some (id :: ids) ∧ id ≠ ""
    ∧ CallAttach "ns1" "c1" (attach_io server) = CallAttach ns id (attach_io server)
    ∧ exec (Server.Attach server)
      = (Ret (client_Attach ns id (attach_io server)),
         [CallAttach "ns1" "c1" (attach_io server)]).
Proof.
  intros client md server.
  apply (Attach_call_implies_valid server (CallAttach "ns1" "c1" (attach_io server))).
  apply list_elem_of_here.
Defined.

(** X12.  The namespace is checked first.  When the first value of
    [namespace] is missing or empty, and [container] is not bound to an
    empty list, [Attach] answers with the error about the namespace,
    whatever the container is, and leaves the client alone. *)
Theorem Attach_namespace_checked_first `{client : RuntimeClient}
    (server : AttachServer) (md : MD) :
  incoming server = Some md →
  md !! "namespace" = None ∨ (∃ vs, md !! "namespace" = Some ("" :: vs)) →
  md !! "container" ≠ Some [] →
  exec (Server.Attach server)
  = (Ret (Some (errorString "You must define 'namespace' metadata")), []).
Proof.
  intros Hmd Hns Hid. run_handler. rewrite Hmd. unfold getMetadataValue.
  destruct Hns as [-> | [vs ->]]; simpl;
    by destruct (md !! "container") as [[|id ids]|].
Qed.

Lemma Attach_namespace_checked_first_witness :
  let client := accepting_client in
  let md : MD := {[ "namespace" := [""] ]} in
  exec (Server.Attach (attach_server (Some md)))
  = (Ret (Some (errorString "You must define 'namespace' metadata")), []).
Proof.
  intros client md.
  apply (Attach_namespace_checked_first (attach_server (Some md)) md);
    [reflexivity | right; by exists [] | discriminate].
Defined.

(** X13.  With a namespace that is there, a first value of [container]
    that is missing or empty is answered with the error about the
    container, and the client is left alone. *)
Theorem Attach_container_required `{client : RuntimeClient}
    (server : AttachServer) (md : MD) (ns : string) (nss : list string) :
  incoming server = Some md →
  md !! "namespace" = Some (ns :: nss) → ns ≠ "" →
  md !! "container" = None ∨ (∃ vs, md !! "container" = Some ("" :: vs)) →
  exec (Server.Attach server)
  = (Ret (Some (errorString "You must define 'container' metadata")), []).
Proof.
  intros Hmd Hns Hne Hid. run_handler. rewrite Hmd. unfold getMetadataValue.
  rewrite Hns. destruct Hid as [-> | [vs ->]]; simpl; by repeat case_decide.
Qed.

Lemma Attach_container_required_witness :
  let client := accepting_client in
  let md : MD := {[ "namespace" := ["ns1"] ]} in
  exec (Server.Attach (attach_server (Some md)))
  = (Ret (Some (errorString "You must define 'container' metadata")), []).
Proof.
  intros client md.
  apply (Attach_container_required (attach_server (Some md)) md "ns1" []);
    [reflexivity | reflexivity | discriminate | by left].
Defined.

(** ** [Server.Create], further *)

Lemma record_le_refl (f : progress.ImageFetch) : record_le f f.
Proof. by split_and!. Qed.

Lemma tracker_le_refl (ps : list progress.ImageFetch) : tracker_le ps ps.
Proof. intros i f Hf. exists f. split; [done|apply record_le_refl]. Qed.

Lemma tracker_le_trans (ps1 ps2 ps3 : list progress.ImageFetch) :
  tracker_le ps1 ps2 → tracker_le ps2 ps3 → tracker_le ps1 ps3.
Proof.
  intros H12 H23 i f Hf.
  destruct (H12 i f Hf) as (f2 & Hf2 & ? & ? & ?).
  destruct (H23 i f2 Hf2) as (f3 & Hf3 & ? & ? & ?).
  exists f3. split; [done|]. split_and!; [congruence..|auto].
Qed.

Lemma tracker_le_alter (g : progress.ImageFetch → progress.ImageFetch)
    (i : nat) (ps : list progress.ImageFetch) :
  (∀ f, record_le f (g f)) → tracker_le ps (alter g i ps).
Proof.
  intros Hg j f Hf. destruct (decide (i = j)) as [->|Hne].
  - exists (g f). split; [|done]. by rewrite list_lookup_alter_eq, Hf.
  - exists f. split; [|apply record_le_refl]. by rewrite list_lookup_alter_ne.
Qed.

Lemma step_tracker_le (pod : Pod) (st st' : Server.State) (ev : Server.Event) :
  Server.step pod st ev = Some st' →
  tracker_le (Server.progresses st) (Server.progresses st').
Proof.
  intros Hstep. destruct st as [pc ps d b cl se w].
  step_cases Hstep; simpl in *; subst; try apply tracker_le_refl.
  - intros i f Hf. exists f. split; [|apply record_le_refl].
    by apply lookup_app_l_Some.
  - apply tracker_le_alter. by intros f.
  - apply tracker_le_alter. by intros f.
Qed.

(** X14.  From any state and along any steps, the tracker only grows:
    every record stays at its index with its container name and image,
    and a record that is complete stays complete. *)
Theorem tracker_only_grows (pod : Pod) (st st' : Server.State)
    (trace : list Server.Event) :
  Server.run pod st trace = Some st' →
  tracker_le (Server.progresses st) (Server.progresses st')
  ∧ length (Server.progresses st) ≤ length (Server.progresses st').
Proof.
  intros Hrun.
  assert (tracker_le (Server.progresses st) (Server.progresses st')) as Hle.
  { revert st Hrun. induction trace as [|ev trace IH]; intros st.
    - intros [= <-]. apply tracker_le_refl.
    - intros (mid & Hstep & Hrun)%run_cons_Some.
      eapply tracker_le_trans; [by eapply step_tracker_le|by apply IH]. }
  split; [done|].
  destruct (Server.progresses st) as [|f ps] eqn:Hps using rev_ind; [simpl; lia|].
  destruct (Hle (length ps) f) as (f' & Hf' & _).
  { by rewrite lookup_app_r, Nat.sub_diag by lia. }
  apply lookup_lt_Some in Hf'. rewrite length_app. simpl. lia.
Qed.

Lemma tracker_only_grows_witness :
  tracker_le (Server.progresses (state_after sample_pod (take 4 all_succeed)))
    (Server.progresses (state_after sample_pod all_succeed))
  ∧ length (Server.progresses (state_after sample_pod (take 4 all_succeed)))
    ≤ length (Server.progresses (state_after sample_pod all_succeed)).
Proof.
  apply (tracker_only_grows sample_pod
           (state_after sample_pod (take 4 all_succeed))
           (state_after sample_pod all_succeed) (drop 4 all_succeed)).
  by vm_compute.
Defined.

Lemma shape_calls_prefix (pod : Pod) (pc : Server.PC)
    (ps : list progress.ImageFetch) (cl : list Call) :
  pipeline_shape pod pc ps cl →
  cl `prefix_of` completed_calls pod 0 (Containers (Spec pod))
  ∧ (pc = Server.Returned None →
     cl = completed_calls pod 0 (Containers (Spec pod))).
Proof.
  assert (∀ pre rest, Containers (Spec pod) = pre ++ rest →
            completed_calls pod 0 pre
              `prefix_of` completed_calls pod 0 (Containers (Spec pod))) as Hfull.
  { intros pre rest ->. rewrite completed_calls_app. by apply prefix_app_r. }
  assert (∀ pre c rest, Containers (Spec pod) = pre ++ c :: rest →
            completed_calls pod 0 pre
              ++ [CallPullImage (Namespace (Metadata pod)) (Image c) (length pre)]
              `prefix_of` completed_calls pod 0 (Containers (Spec pod))) as Hpull.
  { intros pre c rest ->. rewrite completed_calls_app. apply prefix_app.
    simpl. by eexists. }
  assert (∀ ret, exit_shape pod ret ps cl →
            cl `prefix_of` completed_calls pod 0 (Containers (Spec pod))
            ∧ (ret = None → cl = completed_calls pod 0 (Containers (Spec pod))))
    as Hexit.
  { intros ret Hex. inversion Hex as [|pre c rest ? ? ? Hcs|pre c rest ? ? ? Hcs];
      subst; (split; [|done]); eauto.
    apply (Hfull (pre ++ [c]) rest). by rewrite <- app_assoc. }
  intros Hsh. inversion Hsh as [pre rest ? Hcs|pre c rest ? ? Hcs
                                |pre c rest ? ? Hcs|? ? ? Hex|? ? ? Hex]; subst;
    try (split; [|done]); eauto.
  - apply (Hfull (pre ++ [c]) rest). by rewrite <- app_assoc.
  - by apply Hexit in Hex as [? _].
  - apply Hexit in Hex as [? Hn]. split; [done|]. intros [= ->]. by apply Hn.
Qed.

(** X17.  At every point of every call, the calls made on the client
    are the beginning of one fixed sequence: pull the image of the first
    container into the first record, create the first container, pull
    the image of the second into the second record, and so on.  So no
    container is created before its image is pulled, none is handled
    twice or out of turn, and there are at most two calls per container.
    When [Create] has returned no error the whole sequence was made. *)
Theorem calls_follow_declared_order (pod : Pod) (trace : list Server.Event)
    (st : Server.State) :
  Server.Create pod trace = Some st →
  Server.calls st `prefix_of` completed_calls pod 0 (Containers (Spec pod))
  ∧ length (Server.calls st) ≤ 2 * length (Containers (Spec pod))
  ∧ (Server.returned st = Some None →
     Server.calls st = completed_calls pod 0 (Containers (Spec pod))).
Proof.
  intros Hst. pose proof (Create_invariant _ _ _ Hst) as [Hsh _ _].
  destruct (shape_calls_prefix _ _ _ _ Hsh) as [Hpre Hfull]. split_and!.
  - done.
  - rewrite <- (completed_calls_length pod 0). by apply prefix_length.
  - unfold Server.returned. destruct (Server.pc st) as [| | | |ret]; try done.
    intros [= ->]. by apply Hfull.
Qed.

Lemma calls_follow_declared_order_witness :
  let st := state_after sample_pod all_succeed in
  Server.calls st `prefix_of` completed_calls sample_pod 0 [web; db]
  ∧ length (Server.calls st) ≤ 2 * 2
  ∧ Server.calls st = completed_calls sample_pod 0 [web; db].
Proof.
  intros st.
  destruct (calls_follow_declared_order sample_pod all_succeed st)
    as (Hpre & Hlen & Hfull); [by vm_compute|].
  split_and!; [exact Hpre | exact Hlen | apply Hfull; by vm_compute].
Defined.

Lemma step_steps_left (pod : Pod) (st st' : Server.State) (ev : Server.Event) :
  Server.step pod st ev = Some st' →
  (if is_pipeline_step ev then 1 else 0) + steps_left (Server.pc st')
  ≤ steps_left (Server.pc st).
Proof.
  intros Hstep. destruct st as [pc ps d b cl se w].
  step_cases Hstep; simpl in *; subst; simpl; lia.
Qed.

(** X18.  The calling goroutine takes at most 3 N + 2 steps of its own
    in a call on a pod of N containers (loop heads, returns of client
    calls, the deferred close), however the broadcaster and the client's
    reports are interleaved; and until [Create] has returned its next
    step is open, whatever the client answers.  So [Create] returns as
    soon as the client calls it makes have returned, and the broadcaster
    cannot hold it up. *)
Theorem pipeline_takes_bounded_steps (pod : Pod) (trace : list Server.Event)
    (st : Server.State) :
  Server.Create pod trace = Some st →
  count is_pipeline_step trace + steps_left (Server.pc st)
  ≤ 3 * length (Containers (Spec pod)) + 2
  ∧ match Server.pc st with
    | Server.LoopHead _ => is_Some (Server.step pod st Server.EvRange)
    | Server.InPullImage _ _ _ =>
        ∀ err, is_Some (Server.step pod st (Server.EvPullImageReturns err))
    | Server.InCreateContainer _ _ =>
        ∀ err, is_Some (Server.step pod st (Server.EvCreateContainerReturns err))
    | Server.Deferred _ => is_Some (Server.step pod st Server.EvCloseDone)
    | Server.Returned _ => steps_left (Server.pc st) = 0
    end.
Proof.
  intros Hst. split.
  - revert st Hst. induction trace as [|ev trace IH] using rev_ind; intros st.
    + intros [= <-]. unfold count. simpl. lia.
    + intros (mid & Hmid & Hstep)%Create_snoc.
      pose proof (IH mid Hmid). pose proof (step_steps_left _ _ _ _ Hstep).
      rewrite count_snoc. lia.
  - unfold Server.step.
    destruct (Server.pc st) as [[|c rest]|c p rest|c rest|ret|ret]; simpl;
      try done; by intros [e|].
Qed.

Lemma pipeline_takes_bounded_steps_witness :
  count is_pipeline_step all_succeed
    + steps_left (Server.pc (state_after sample_pod all_succeed))
  ≤ 3 * length (Containers (Spec sample_pod)) + 2
  ∧ steps_left (Server.pc (state_after sample_pod all_succeed)) = 0.
Proof.
  apply (pipeline_takes_bounded_steps sample_pod all_succeed
           (state_after sample_pod all_succeed)).
  by vm_compute.
Defined.

(** ** The console state reporter *)

Lemma report_range_no_nil (entries : list (string * option state.DeviceState)) :
  Forall (λ p, p.2 ≠ None) entries →
  state.report_range entries
  = (Ret None, omap (λ p, state.state_update p.1 <$> p.2) entries).
Proof.
  induction 1 as [|[ns [st|]] entries Hp _ IH]; simpl in *; [done| |done].
  by rewrite IH.
Qed.

Lemma report_range_nil (entries : list (string * option state.DeviceState)) :
  Exists (λ p, p.2 = None) entries →
  (state.report_range entries).1 = Panic state.nil_dereference.
Proof.
  induction entries as [|[ns [st|]] entries IH]; intros Hex; simpl.
  - by apply Exists_nil in Hex.
  - apply Exists_cons in Hex as [?|Hex]; [done|].
    specialize (IH Hex). by destruct (state.report_range entries).
  - done.
Qed.

Lemma report_no_nil {Info Client : Type}
    (r : state.ConsoleStateReporter Info Client) (info : Info)
    (states : state.States) :
  (∀ namespace, states !! namespace ≠ Some None) →
  state.report r info states
  = (Ret None, omap (λ p, state.state_update p.1 <$> p.2) (map_to_list states))
  ∧ length (omap (λ p : string * option state.DeviceState,
                    state.state_update p.1 <$> p.2) (map_to_list states))
    = size states.
Proof.
  intros Hnil. unfold state.report.
  assert (Forall (λ p : string * option state.DeviceState, p.2 ≠ None)
            (map_to_list states)) as Hall.
  { apply Forall_forall. intros [ns [st|]] Hin; [done|].
    apply elem_of_map_to_list in Hin. by destruct (Hnil ns). }
  split; [by apply report_range_no_nil|].
  rewrite <- (length_map_to_list states).
  induction Hall as [|[ns [st|]] entries Hp _ IH]; [done| |done].
  cbn. by f_equal.
Qed.

(** X19.  When no state is a nil pointer, [report] returns [nil] and
    logs one line per namespace of the map and no other: as many lines
    as the map has namespaces, each at level info, with the namespace in
    its message and the number of pods of that namespace in its field,
    in whatever order the map is walked. *)
Theorem report_one_line_per_namespace {Info Client : Type}
    (r : state.ConsoleStateReporter Info Client) (info : Info)
    (states : state.States) :
  (∀ namespace, states !! namespace ≠ Some None) →
  ∃ lines,
    state.report r info states = (Ret None, lines)
    ∧ length lines = size states
    ∧ ∀ e, e ∈ lines ↔
        ∃ namespace st, states !! namespace = Some (Some st)
                        ∧ e = state.state_update namespace st.
Proof.
  intros Hnil. destruct (report_no_nil r info states Hnil) as [Hrep Hlen].
  eexists. split; [exact Hrep|]. split; [exact Hlen|].
  intros e. rewrite list_elem_of_omap. split.
  - intros ([ns [st|]] & Hin & He); simpl in *; [|done].
    injection He as <-. exists ns, st. split; [|done].
    by apply elem_of_map_to_list.
  - intros (ns & st & Hin & ->). exists (ns, Some st). split; [|done].
    by apply elem_of_map_to_list.
Qed.

Lemma report_one_line_per_namespace_witness :
  ∃ lines,
    state.report sample_reporter () sample_states = (Ret None, lines)
    ∧ length lines = size sample_states
    ∧ ∀ e, e ∈ lines ↔
        ∃ namespace st, sample_states !! namespace = Some (Some st)
                        ∧ e = state.state_update namespace st.
Proof.
  apply (report_one_line_per_namespace sample_reporter () sample_states).
  intros namespace. unfold sample_states.
  destruct (decide (namespace = "ns1")) as [->|?]; [done|].
  destruct (decide (namespace = "ns2")) as [->|?]; [done|].
  by rewrite lookup_insert_ne, lookup_singleton_ne.
Defined.

(** X20.  When the state of some namespace is a nil pointer, [report]
    panics on reading its pods, wherever in the walk that namespace
    comes. *)
Theorem report_nil_state_panics {Info Client : Type}
    (r : state.ConsoleStateReporter Info Client) (info : Info)
    (states : state.States) (namespace : string) :
  states !! namespace = Some None →
  (state.report r info states).1 = Panic state.nil_dereference.
Proof.
  intros Hnil. unfold state.report. apply report_range_nil.
  apply Exists_exists. exists (namespace, None). split; [|done].
  by apply elem_of_map_to_list.
Qed.

Lemma report_nil_state_panics_witness :
  (state.report sample_reporter () (<["ns3" := None]> sample_states)).1
  = Panic state.nil_dereference.
Proof.
  apply (report_nil_state_panics sample_reporter ()
           (<["ns3" := None]> sample_states) "ns3").
  reflexivity.
Defined.

Lemma report_lines_info (entries : list (string * option state.DeviceState)) :
  Forall (λ e, state.level e = state.InfoLevel)
    (omap (λ p, state.state_update p.1 <$> p.2) entries).
Proof.
  induction entries as [|[ns [st|]] entries IH]; cbn; [done| |done].
  by constructor.
Qed.

Lemma effects_of_info_lines (lines : list state.Entry) :
  Forall (λ e, state.level e = state.InfoLevel) lines →
  omap state.slept (state.Logged <$> lines) = []
  ∧ omap state.logged_error (state.Logged <$> lines) = []
  ∧ omap state.logged_info (state.Logged <$> lines) = lines.
Proof.
  induction 1 as [|[lv fs msg] lines Hlv _ (IH1 & IH2 & IH3)]; [done|].
  simpl in Hlv. subst lv. rewrite fmap_cons. cbn. by rewrite IH1, IH2, IH3.
Qed.

(** The effects of one round whose fetch did not bring a nil state. *)
Lemma Start_round_effects {Info Client : Type}
    (r : state.ConsoleStateReporter Info Client)
    (fetched : state.States * option error) :
  state.no_nil fetched →
  ∃ effects,
    state.Start_round r fetched = (Ret (), effects)
    ∧ omap state.slept effects = [state.interval r]
    ∧ omap state.logged_error effects
      = match fetched.2 with
        | Some err => [state.message (state.fetch_failed err)]
        | None => []
        end
    ∧ length (omap state.logged_info effects)
      = match fetched.2 with
        | Some _ => 0
        | None => size fetched.1
        end.
Proof.
  destruct fetched as [states [err|]]; unfold state.no_nil; simpl; intros Hnil.
  - eexists. by split_and!.
  - destruct (report_no_nil r (state.info r) states (Hnil eq_refl)) as [Hrep Hlen].
    rewrite Hrep. eexists. split; [done|].
    destruct (effects_of_info_lines _ (report_lines_info (map_to_list states)))
      as (H1 & H2 & H3).
    rewrite !omap_app, H1, H2, H3. cbn. by rewrite !app_nil_r.
Qed.

(** X21.  A failed fetch does not end the loop of [Start] and does not
    change its pace.  Over any number of rounds in which no fetched
    state is a nil pointer, the loop sleeps once per round, always for
    the interval the reporter was built with; it logs one error line per
    failed fetch, with the text of the error, in order; and it logs info
    lines for the fetches that succeeded only, one per namespace. *)
Theorem Start_keeps_polling {Info Client : Type}
    (r : state.ConsoleStateReporter Info Client)
    (fetches : list (state.States * option error)) :
  Forall state.no_nil fetches →
  ∃ effects,
    state.Start r fetches = (Ret (), effects)
    ∧ omap state.slept effects = replicate (length fetches) (state.interval r)
    ∧ omap state.logged_error effects
      = (λ err, "Error while reporting current device state: " +:+ Error err)
          <$> omap snd fetches
    ∧ length (omap state.logged_info effects)
      = sum_list ((λ fetched : state.States * option error,
                     match fetched.2 with
                     | Some _ => 0
                     | None => size fetched.1
                     end) <$> fetches).
Proof.
  induction 1 as [|fetched fetches Hnil _ (more & Hmore & Hs & He & Hi)].
  - by exists [].
  - destruct (Start_round_effects r fetched Hnil) as (effects & Hround & Hs1 & He1 & Hi1).
    exists (effects ++ more). simpl. rewrite Hround, Hmore. split; [done|].
    rewrite !omap_app, Hs1, Hs, He1, He, length_app, Hi1, Hi.
    destruct fetched as [states [err|]]; by split_and!.
Qed.

Lemma Start_keeps_polling_witness :
  let fetches := [ (sample_states, None); (∅, Some timeout);
                   (sample_states, Some timeout); (sample_states, None) ] in
  ∃ effects,
    state.Start sample_reporter fetches = (Ret (), effects)
    ∧ omap state.slept effects
      = replicate (length fetches) (state.interval sample_reporter)
    ∧ omap state.logged_error effects
      = (λ err, "Error while reporting current device state: " +:+ Error err)
          <$> omap snd fetches
    ∧ length (omap state.logged_info effects)
      = sum_list ((λ fetched : state.States * option error,
                     match fetched.2 with
                     | Some _ => 0
                     | None => size fetched.1
                     end) <$> fetches).
Proof.
  intros fetches.
  apply (Start_keeps_polling sample_reporter fetches).
  assert (state.no_nil (sample_states, None)) as Hok.
  { intros _ namespace. unfold sample_states. simpl.
    destruct (decide (namespace = "ns1")) as [->|?]; [done|].
    destruct (decide (namespace = "ns2")) as [->|?]; [done|].
    by rewrite lookup_insert_ne, lookup_singleton_ne. }
  repeat constructor; try done.
Defined.

(** ** [NewServer] and [Server.Serve] *)

(** X22.  A server built by [NewServer] listens on TCP at the address it
    was built with.  When listening fails, [Serve] returns that error
    wrapped with the address and the gRPC server is not run; otherwise
    the gRPC server is run on that listener with the pods service and
    the containers service registered, in that order, and [Serve]
    returns what it returns, as it is. *)
Theorem Serve_after_NewServer `{apiserver.Transport} {Client : Type}
    (listen : string) (client : Client) :
  let lis := {| apiserver.network := "tcp"; apiserver.address := listen |} in
  let grpc := {| apiserver.services :=
                   [apiserver.PodsService; apiserver.ContainersService] |} in
  apiserver.Serve (apiserver.NewServer listen client)
  = match apiserver.net_Listen "tcp" listen with
    | Some err =>
        (Some (withMessage err
                 ("Failed to start API server to listen [" +:+ listen +:+ "]")),
         [apiserver.Listened "tcp" listen])
    | None =>
        (apiserver.grpc_Serve grpc lis,
         [apiserver.Listened "tcp" listen; apiserver.Served grpc lis])
    end.
Proof.
  cbv zeta. unfold apiserver.Serve, apiserver.NewServer. simpl.
  by destruct (apiserver.net_Listen "tcp" listen).
Qed.
